(** * Cluster freeze / unfreeze and the convergence wait of the admin server

    A shallow embedding of [adminServer.ClusterFreeze] and
    [adminServer.waitForStoreFrozen] (server/admin.go).

    - [ClusterFreeze] is sequential: it is embedded by explicit state passing
      over the key-value client, which is a parameter of the development.
    - [waitForStoreFrozen] runs a retry loop that spawns one goroutine per poll
      action.  It is embedded as a transition system: one [event] is one atomic
      step of the controlling loop or of a goroutine, chosen by the scheduler
      and carrying the answer of the outside world (gossip, RPC, retry timer).
      The mutex [mu] is modelled by enabling the locked section of a goroutine
      only while the loop does not hold the lock. *)

From Stdlib Require Import ZArith Lia DecimalString.
From stdpp Require Import gmap strings list fin_maps.

Local Open Scope Z_scope.

(** ** Data *)

(** [roachpb.StoreID] and [roachpb.NodeID] are integers; maps keyed by them are
    [gmap Z _]. *)
Abbreviation StoreID := Z (only parsing).
Abbreviation NodeID := Z (only parsing).

(** [roachpb.Key] is a byte slice. *)
Abbreviation Key := (list Byte.byte) (only parsing).

(** A Go [error] value is represented by its message; the [nil] error is
    [None : option error]. *)
Abbreviation error := string (only parsing).

(** [roachpb.ChangeFrozenRequest], as built by
    [roachpb.NewChangeFrozen(from, to, frozen, mustVersion)]. *)
Record ChangeFrozenRequest := NewChangeFrozen {
  cfr_Key : Key;
  cfr_EndKey : Key;
  cfr_Frozen : bool;
  cfr_MustVersion : string
}.

(** [roachpb.ChangeFrozenResponse]. *)
Record ChangeFrozenResponse := {
  RangesAffected : Z;
  MinStartKey : Key;
  Stores : gmap StoreID NodeID
}.

(** [serverpb.ClusterFreezeResponse]. *)
Record ClusterFreezeResponse := { resp_RangesAffected : Z }.

(** [roachpb.PollFrozenResponse]. *)
Record PollFrozenResponse := {
  NumThawed : Z;
  NumFrozen : Z
}.

(** 64-bit two's complement wrap-around of [+=] on [RangesAffected]. *)
Definition wrap64 (z : Z) : Z := (z + 2 ^ 63) mod 2 ^ 64 - 2 ^ 63.
Definition add64 (a b : Z) : Z := wrap64 (a + b).
Definition int64_range (z : Z) : Prop := - 2 ^ 63 <= z < 2 ^ 63.

(** ** waitForStoreFrozen *)

(** Capacity of [sem := make(chan struct{}, 256)]. *)
Definition semCap : nat := 256.

(** [opts.MaxRetries = 20]. *)
Definition MaxRetries : nat := 20.

(** [sendErr]: a non-blocking send on [errChan], a channel of capacity one. *)
Definition sendErr (err : error) (errChan : option error) : option error :=
  match errChan with
  | None => Some err
  | Some queued => Some queued
  end.

(** The [select] at the end of an iteration: a non-blocking receive on
    [errChan] into [err].  Returns the new [err] and the new channel. *)
Definition recvErr (err : option error) (errChan : option error)
  : option error * option error :=
  match errChan with
  | Some e => (Some e, None)
  | None => (err, None)
  end.

(** The test of the deferred function of a poll action. *)
Definition poll_ok (wantFrozen : bool) (resp : PollFrozenResponse) : bool :=
  (wantFrozen && (NumThawed resp =? 0)) || (negb wantFrozen && (NumFrozen resp =? 0)).

(** The deferred function of a poll action, on a reply ([err == nil]). *)
Definition poll_deferred (wantFrozen : bool) (storeID : Z)
    (resp : PollFrozenResponse) (oks : gmap Z bool) : gmap Z bool :=
  if poll_ok wantFrozen resp then <[storeID := true]> oks
  else delete storeID oks.

(** The counting loop: [numWaiting = len(stores)], then one decrement for each
    [true] entry of [mu.oks]. *)
Definition count_waiting (stores : gmap Z Z) (oks : gmap Z bool) : Z :=
  map_fold (fun _ (ok : bool) n => if ok then n - 1 else n)
           (Z.of_nat (size stores)) oks.

(** [fmt]'s [%d]. *)
Definition fmt_d (n : Z) : string := NilZero.string_of_int (Z.to_int n).

(** Modelled from the spec: [stopper.RunLimitedAsyncTask] is outside the
    sources.  It is the runner's non-blocking submission: it refuses (returns
    [false], without running the action) if the runner has been told to stop
    accepting work or if the concurrency ceiling is saturated; otherwise the
    action is scheduled and it returns [true]. *)
Definition RunLimitedAsyncTask (draining : bool) (inflight : nat) : bool :=
  if draining then false
  else if (semCap <=? inflight)%nat then false
  else true.

(** Modelled from the spec: [retry.Start]/[Next] are outside the sources.  The
    scheduler yields a first attempt and at most [MaxRetries] retries;
    [attempt] counts the attempts already started. *)
Definition retry_allows (attempt : nat) : bool := (attempt <=? MaxRetries)%nat.

(** A running poll action: the loop-local copies captured by the closure. *)
Record task := {
  t_storeID : StoreID;
  t_nodeID : NodeID;
  t_addr : string
}.

(** What a poll action meets outside the lock. *)
Inductive poll_result :=
| DialError (err : error)              (* [GRPCDial] failed *)
| PollError (err : error)              (* [client.PollFrozen] failed *)
| PollReply (resp : PollFrozenResponse).

(** Control points of the loop. *)
Inductive pc :=
| AtNext                          (* about to call [r.Next()] *)
| InRange (todo : list (Z * Z))   (* in the range loop, holding [mu] *)
| AtCount                         (* past the range loop, holding [mu] *)
| AtSelect                        (* [mu] released, before the [select] *)
| Returned (result : option error).

Definition holds_mu (p : pc) : bool :=
  match p with
  | InRange _ | AtCount => true
  | _ => false
  end.

(** The range loop goes on with the remaining entries, or is left. *)
Definition range_pc (todo : list (Z * Z)) : pc :=
  match todo with
  | [] => AtCount
  | _ => InRange todo
  end.

Record state := {
  oks : gmap Z bool;          (* [mu.oks]: [false] in flight, [true] succeeded *)
  errChan : option error;     (* buffered channel of capacity one *)
  running : list task;        (* goroutines started; each holds a slot of [sem] *)
  numWaiting : Z;
  err : option error;
  attempt : nat;
  at_pc : pc;
  (* history, for stating the properties *)
  polled : list Z;            (* stores for which a poll action was started *)
  resolved : list Z;          (* stores for which [GetInfoProto] was called *)
  sent : list error           (* arguments of all calls of [sendErr] *)
}.

(** One atomic step. *)
Inductive event :=
| EvAttempt (order : list (Z * Z))
    (* [r.Next()] is true; [mu.Lock()]; the range loop will go through
       [stores] in [order] *)
| EvExhausted
    (* [r.Next()] is false: out of attempts, or the closer fired *)
| EvVisit (info : error + string) (draining : bool)
    (* one turn of the range loop; [info] is the answer of gossip *)
| EvCount
| EvSelect
| EvPoll (i : nat) (res : poll_result).
    (* the [i]-th running goroutine finishes its action *)

Section WaitForStoreFrozen.

(** The arguments of [waitForStoreFrozen]. *)
Variable stores : gmap StoreID NodeID.
Variable wantFrozen : bool.

(** [util.Pluralize] is outside the sources. *)
Variable Pluralize : Z -> string.

(** State on entry, up to [var err error]. *)
Definition init : state := {|
  oks := ∅;
  errChan := None;
  running := [];
  numWaiting := Z.of_nat (size stores);
  err := None;
  attempt := 0;
  at_pc := AtNext;
  polled := [];
  resolved := [];
  sent := []
|}.

(** The code after the retry loop. *)
Definition finish (err : option error) (numWaiting : Z) : option error :=
  match err with
  | Some e => Some e
  | None =>
      if 0 <? numWaiting then
        Some ("timed out waiting for " +:+ fmt_d numWaiting +:+ " store" +:+
              Pluralize numWaiting +:+ " to report freeze")
      else None
  end.

(** [sendErr] as a state update, with its history. *)
Definition do_sendErr (e : error) (s : state) : state :=
  {| oks := oks s; errChan := sendErr e (errChan s); running := running s;
     numWaiting := numWaiting s; err := err s; attempt := attempt s;
     at_pc := at_pc s; polled := polled s; resolved := resolved s;
     sent := sent s ++ [e] |}.

Definition set_pc (p : pc) (s : state) : state :=
  {| oks := oks s; errChan := errChan s; running := running s;
     numWaiting := numWaiting s; err := err s; attempt := attempt s;
     at_pc := p; polled := polled s; resolved := resolved s;
     sent := sent s |}.

Definition set_oks (m : gmap Z bool) (s : state) : state :=
  {| oks := m; errChan := errChan s; running := running s;
     numWaiting := numWaiting s; err := err s; attempt := attempt s;
     at_pc := at_pc s; polled := polled s; resolved := resolved s;
     sent := sent s |}.

(** A goroutine has returned: its slot of [sem] is released. *)
Definition end_task (i : nat) (s : state) : state :=
  {| oks := oks s; errChan := errChan s; running := delete i (running s);
     numWaiting := numWaiting s; err := err s; attempt := attempt s;
     at_pc := at_pc s; polled := polled s; resolved := resolved s;
     sent := sent s |}.

(** The goroutine is started with the closure of this turn. *)
Definition start_task (t : task) (s : state) : state :=
  {| oks := oks s; errChan := errChan s; running := running s ++ [t];
     numWaiting := numWaiting s; err := err s; attempt := attempt s;
     at_pc := at_pc s; polled := polled s ++ [t_storeID t];
     resolved := resolved s; sent := sent s |}.

Definition log_resolved (storeID : Z) (s : state) : state :=
  {| oks := oks s; errChan := errChan s; running := running s;
     numWaiting := numWaiting s; err := err s; attempt := attempt s;
     at_pc := at_pc s; polled := polled s;
     resolved := resolved s ++ [storeID]; sent := sent s |}.

(** One turn of the body of [for storeID, nodeID := range stores]. *)
Definition visit (storeID nodeID : Z) (rest : list (Z * Z))
    (info : error + string) (draining : bool) (s : state) : state :=
  let s := log_resolved storeID s in
  match info with
  | inl e =>
      (* [GetInfoProto] failed: [sendErr(err); break] *)
      set_pc AtCount (do_sendErr e s)
  | inr addr =>
      match oks s !! storeID with
      | Some _ =>
          (* [inflightOrSucceeded]: [continue] *)
          set_pc (range_pc rest) s
      | None =>
          let s := set_oks (<[storeID := false]> (oks s)) s in
          if RunLimitedAsyncTask draining (length (running s)) then
            set_pc (range_pc rest)
              (start_task {| t_storeID := storeID; t_nodeID := nodeID;
                             t_addr := addr |} s)
          else
            (* [sendErr(errors.New("node is shutting down")); break] *)
            set_pc AtCount (do_sendErr "node is shutting down" s)
      end
  end.

(** Lines 733 to 741: recount under the lock, then unlock. *)
Definition count (s : state) : state :=
  {| oks := oks s; errChan := errChan s; running := running s;
     numWaiting := count_waiting stores (oks s); err := err s;
     attempt := attempt s; at_pc := AtSelect; polled := polled s;
     resolved := resolved s; sent := sent s |}.

(** Lines 743 to 751: the [select] and the test that ends the loop. *)
Definition select (s : state) : state :=
  let '(err', errChan') := recvErr (err s) (errChan s) in
  {| oks := oks s; errChan := errChan'; running := running s;
     numWaiting := numWaiting s; err := err'; attempt := attempt s;
     at_pc := if bool_decide (err' ≠ None) || (numWaiting s =? 0)
              then Returned (finish err' (numWaiting s))
              else AtNext;
     polled := polled s; resolved := resolved s; sent := sent s |}.

(** A new attempt: [r.Next()] is true and the lock is taken. *)
Definition next_attempt (order : list (Z * Z)) (s : state) : state :=
  {| oks := oks s; errChan := errChan s; running := running s;
     numWaiting := numWaiting s; err := err s; attempt := S (attempt s);
     at_pc := range_pc order; polled := polled s; resolved := resolved s;
     sent := sent s |}.

(** The action of a goroutine, with the wrapper that reports its error. *)
Definition poll (i : nat) (t : task) (res : poll_result) (s : state)
  : option state :=
  match res with
  | DialError e | PollError e =>
      (* the deferred function returns at once; the wrapper sends *)
      Some (end_task i (do_sendErr e s))
  | PollReply resp =>
      if holds_mu (at_pc s) then None
      else Some (end_task i
             (set_oks (poll_deferred wantFrozen (t_storeID t) resp (oks s)) s))
  end.

(** The transition function; [None] when the event is not enabled. *)
Definition step (ev : event) (s : state) : option state :=
  match ev, at_pc s with
  | EvAttempt order, AtNext =>
      if retry_allows (attempt s)
         && bool_decide (order ≡ₚ map_to_list stores)
      then Some (next_attempt order s) else None
  | EvExhausted, AtNext =>
      Some (set_pc (Returned (finish (err s) (numWaiting s))) s)
  | EvVisit info draining, InRange ((storeID, nodeID) :: rest) =>
      Some (visit storeID nodeID rest info draining s)
  | EvCount, AtCount => Some (count s)
  | EvSelect, AtSelect => Some (select s)
  | EvPoll i res, _ =>
      match running s !! i with
      | Some t => poll i t res s
      | None => None
      end
  | _, _ => None
  end.

Fixpoint run (evs : list event) (s : state) : option state :=
  match evs with
  | [] => Some s
  | ev :: evs' =>
      match step ev s with
      | Some s' => run evs' s'
      | None => None
      end
  end.

(** States of an invocation. *)
Definition reachable (s : state) : Prop := ∃ evs, run evs init = Some s.

End WaitForStoreFrozen.

(** ** ClusterFreeze *)

Section ClusterFreeze.

(** [roachpb.KeyMax] and the constants of package [keys] are outside the
    sources. *)
Variables KeyMax Meta2KeyMax Meta1KeyMax LocalMax : Key.

(** [build.GetInfo().Tag]. *)
Variable Tag : string.

(** The key-value client [s.server.db]: running a batch holding one
    [ChangeFrozen] request changes the database and yields an error or the
    response to that request. *)
Variable DB : Type.
Variable Run : DB -> ChangeFrozenRequest -> DB * (error + ChangeFrozenResponse).

Variable Pluralize : Z -> string.

(** What the closure [process] reads and writes: the database, [resp],
    [stores]; [cf_issued] and [cf_results] are the history of the requests
    sent and of what came back. *)
Record cf_state := {
  cf_db : DB;
  cf_resp : ClusterFreezeResponse;
  cf_stores : gmap StoreID NodeID;
  cf_issued : list ChangeFrozenRequest;
  cf_results : list (error + ChangeFrozenResponse)
}.

(** On entry: [var resp], [stores := make(...)]. *)
Definition cf_init (db : DB) : cf_state :=
  {| cf_db := db; cf_resp := {| resp_RangesAffected := 0 |};
     cf_stores := ∅; cf_issued := []; cf_results := [] |}.

(** [for storeID, nodeID := range fr.Stores { stores[storeID] = nodeID }] *)
Definition merge_stores (frStores stores : gmap Z Z) : gmap Z Z :=
  map_fold (fun storeID nodeID (acc : gmap Z Z) => <[storeID := nodeID]> acc)
           stores frStores.

(** The closure [process]. *)
Definition process (freeze : bool) (from to : Key) (s : cf_state)
  : cf_state * (error + Key) :=
  let fa := NewChangeFrozen from to freeze Tag in
  let '(db', res) := Run (cf_db s) fa in
  match res with
  | inl e =>
      ({| cf_db := db'; cf_resp := cf_resp s; cf_stores := cf_stores s;
          cf_issued := cf_issued s ++ [fa];
          cf_results := cf_results s ++ [inl e] |}, inl e)
  | inr fr =>
      ({| cf_db := db';
          cf_resp := {| resp_RangesAffected :=
                          add64 (resp_RangesAffected (cf_resp s))
                                (RangesAffected fr) |};
          cf_stores := merge_stores (Stores fr) (cf_stores s);
          cf_issued := cf_issued s ++ [fa];
          cf_results := cf_results s ++ [inr fr] |}, inr (MinStartKey fr))
  end.

(** [for _, freezeFrom := range freezeFroms], with [freezeTo] updated as it
    goes along; the first error is returned. *)
Fixpoint freeze_loop (freeze : bool) (freezeFroms : list Key) (freezeTo : Key)
    (s : cf_state) : cf_state * option error :=
  match freezeFroms with
  | [] => (s, None)
  | freezeFrom :: rest =>
      match process freeze freezeFrom freezeTo s with
      | (s', inl e) => (s', Some e)
      | (s', inr freezeTo') => freeze_loop freeze rest freezeTo' s'
      end
  end.

(** [ClusterFreeze] up to its last line: all [ChangeFrozen] requests. *)
Definition change_frozen (freeze : bool) (db : DB) : cf_state * option error :=
  if freeze then
    freeze_loop freeze [Meta2KeyMax; Meta1KeyMax; LocalMax] KeyMax (cf_init db)
  else
    match process freeze LocalMax KeyMax (cf_init db) with
    | (s', inl e) => (s', Some e)
    | (s', inr _) => (s', None)
    end.

(** [ClusterFreeze]: the pairs (response, error) it can return.  The last line
    returns [&resp] with whatever [waitForStoreFrozen(stores, req.Freeze)]
    returns. *)
Inductive ClusterFreeze (freeze : bool) (db : DB)
  : option ClusterFreezeResponse * option error -> Prop :=
| ClusterFreeze_failed s e :
    change_frozen freeze db = (s, Some e) ->
    ClusterFreeze freeze db (None, Some e)
| ClusterFreeze_waited s evs w result :
    change_frozen freeze db = (s, None) ->
    run (cf_stores s) freeze Pluralize evs (init (cf_stores s)) = Some w ->
    at_pc w = Returned result ->
    ClusterFreeze freeze db (Some (cf_resp s), result).

End ClusterFreeze.

Arguments cf_db {DB} _.
Arguments cf_resp {DB} _.
Arguments cf_stores {DB} _.
Arguments cf_issued {DB} _.
Arguments cf_results {DB} _.

(** ** Vocabulary of the properties *)

(** Number of poll actions of a store that have been started and have not
    returned yet. *)
Definition outstanding (storeID : Z) (s : state) : nat :=
  length (filter (fun t => t_storeID t = storeID) (running s)).

(** Number of poll actions started so far for a store. *)
Definition polls_of (storeID : Z) (s : state) : nat :=
  length (filter (fun x => x = storeID) (polled s)).

(** Number of address resolutions made so far for a store. *)
Definition lookups_of (storeID : Z) (s : state) : nat :=
  length (filter (fun x => x = storeID) (resolved s)).

(** Number of stores marked as succeeded in [mu.oks]. *)
Definition confirmed (m : gmap Z bool) : nat :=
  size (filter (fun kv => kv.2 = true) m).

(** The sum of the counts of a list of responses, in the arithmetic of the
    code and in the integers. *)
Definition sum64 (l : list ChangeFrozenResponse) : Z :=
  foldl (fun acc fr => add64 acc (RangesAffected fr)) 0 l.
Definition sumZ (l : list ChangeFrozenResponse) : Z :=
  foldl (fun acc fr => acc + RangesAffected fr) 0 l.

(** The union over store id of a list of store sets, later ones winning. *)
Definition union_stores (l : list ChangeFrozenResponse) : gmap Z Z :=
  foldl (fun acc fr => Stores fr ∪ acc) ∅ l.

(** The successful responses among the results of the steps. *)
Definition successes (l : list (error + ChangeFrozenResponse))
  : list ChangeFrozenResponse :=
  omap (fun r => match r with inl _ => None | inr fr => Some fr end) l.

(** Number of stores of [stores] not marked as succeeded in [mu.oks]. *)
Definition unconverged (stores : gmap Z Z) (m : gmap Z bool) : nat :=
  size (filter (fun kv => m !! kv.1 ≠ Some true) stores).

(** The keys of [mu.oks] and the entries still to visit come from [stores]. *)
Definition InvDom (stores : gmap Z Z) (s : state) : Prop :=
  (forall storeID : Z,
      is_Some (oks s !! storeID) -> is_Some (stores !! storeID)) /\
  match at_pc s with
  | InRange todo =>
      forall storeID nodeID : Z,
        (storeID, nodeID) ∈ todo -> is_Some (stores !! storeID)
  | _ => True
  end.

(** What holds in every state of an invocation. *)
Record Inv (s : state) : Prop := {
  inv_inflight : forall t, t ∈ running s -> oks s !! t_storeID t = Some false;
  inv_nodup : NoDup (t_storeID <$> running s);
  inv_cap : (length (running s) <= semCap)%nat;
  inv_err : forall e, err s = Some e -> at_pc s = Returned (Some e);
  inv_first :
    match err s with
    | None => errChan s = head (sent s)
    | Some e => head (sent s) = Some e
    end
}.

(** ** Sample runs *)

(** A stand-in for [util.Pluralize]. *)
Definition sample_Pluralize (n : Z) : string := if n =? 1 then "" else "s".

(** The state a schedule leads to (the state on entry if it is not enabled). *)
Definition state_after (stores : gmap Z Z) (wantFrozen : bool)
    (evs : list event) : state :=
  default (init stores) (run stores wantFrozen sample_Pluralize evs (init stores)).

(** One store, on node 10. *)
Definition one_store : gmap Z Z := {[ 1 := 10 ]}.

(** Two stores. *)
Definition two_stores : gmap Z Z := {[ 1 := 10; 2 := 20 ]}.

(** One more store than [sem] has slots, all on node 1. *)
Definition many_stores_order : list (Z * Z) :=
  (fun i => (Z.of_nat i, 1)) <$> seq 1 (S semCap).
Definition many_stores : gmap Z Z := list_to_map many_stores_order.

Definition frozen_reply : PollFrozenResponse := {| NumThawed := 0; NumFrozen := 3 |}.

(** The only store is polled once and the loop goes for a second attempt
    while the poll action is still running. *)
Definition evs_polling : list event :=
  [EvAttempt [(1, 10)]; EvVisit (inr "node10:26257") false; EvCount; EvSelect].

(** The poll action then reports the store frozen. *)
Definition evs_confirmed : list event :=
  evs_polling ++ [EvPoll 0 (PollReply frozen_reply)].

(** Second attempt, the store being marked as succeeded. *)
Definition evs_revisit : list event := evs_confirmed ++ [EvAttempt [(1, 10)]].

(** Two poll actions fail one after the other during the recount. *)
Definition evs_two_errors : list event :=
  [EvAttempt [(2, 20); (1, 10)]; EvVisit (inr "node20:26257") false;
   EvVisit (inr "node10:26257") false; EvPoll 0 (PollError "rpc error: first");
   EvCount; EvPoll 0 (DialError "rpc error: second")].


(** No poll action returns, nothing drains; the last store finds [sem] full. *)
Definition evs_saturated : list event :=
  EvAttempt many_stores_order
    :: replicate (S semCap) (EvVisit (inr "node1:26257") false)
    ++ [EvCount; EvSelect].

(** Sample values for the key constants and the build tag. *)
Definition sample_KeyMax : Key := [Byte.xff; Byte.xff].
Definition sample_Meta2KeyMax : Key := [Byte.x03; Byte.xff; Byte.xff].
Definition sample_Meta1KeyMax : Key := [Byte.x02; Byte.xff; Byte.xff].
Definition sample_LocalMax : Key := [Byte.x02].
Definition sample_Tag : string := "beta-20160505".

(** A scripted database: it answers the requests with the results listed, in
    order. *)
Definition script_Run (db : list (error + ChangeFrozenResponse))
    (_ : ChangeFrozenRequest)
  : list (error + ChangeFrozenResponse) * (error + ChangeFrozenResponse) :=
  match db with
  | [] => ([], inl "no more answers")
  | r :: db' => (db', r)
  end.

Definition sample_change_frozen (freeze : bool)
    (db : list (error + ChangeFrozenResponse)) :=
  change_frozen sample_KeyMax sample_Meta2KeyMax sample_Meta1KeyMax
    sample_LocalMax sample_Tag _ script_Run freeze db.

(** Three successful steps; store 2 is named twice, with different nodes. *)
Definition script_ok : list (error + ChangeFrozenResponse) :=
  [inr {| RangesAffected := 5; MinStartKey := [Byte.x03; Byte.x61];
          Stores := {[ 1 := 10; 2 := 20 ]} |};
   inr {| RangesAffected := 2; MinStartKey := [Byte.x02; Byte.x62];
          Stores := {[ 2 := 21 ]} |};
   inr {| RangesAffected := 1; MinStartKey := [Byte.x02];
          Stores := {[ 3 := 30 ]} |}].

(** The first step fails. *)
Definition script_fail : list (error + ChangeFrozenResponse) :=
  [inl "range unavailable"].

(** ** The SQL facade: results, query builder, result scanner *)

(** A [time.Time], by the two observations this file makes of it. *)
Record Time := { Unix : Z; Nanosecond : Z }.

(** [parser.Datum], by the dynamic types this file tests for. *)
Inductive Datum :=
| DNull
| DString (s : string)
| DBool (b : bool)
| DInt (n : Z)
| DBytes (b : string)
| DTimestamp (t : Time)
| DOther (typeName : string).

(** [sql.ResultColumn], [sql.ResultRow] and [sql.Result]. *)
Record ResultColumn := { Name : string }.
Record ResultRow := { Values : list Datum }.
Record Result := {
  Err : option error;
  RowsAffected : Z;
  Columns : list ResultColumn;
  Rows : list ResultRow
}.

(** The destination of a scan, an [interface{}]: the nil interface, a pointer
    of one of the five types of the type switch (which may be a nil pointer),
    or a value of any other type. *)
Inductive ptr_type := PtrString | PtrBool | PtrInt64 | PtrTime | PtrBytes.
Inductive Dst :=
| NilInterface
| Pointer (ty : ptr_type) (isNilPointer : bool)
| OtherType (typeName : string).

(** What a scan stores through the destination pointer. *)
Inductive scanned :=
| VString (s : string)
| VBool (b : bool)
| VInt64 (n : Z)
| VTime (t : Time)
| VBytes (b : string).

(** The arguments of a formatting call. *)
Inductive fmt_arg :=
| ArgInt (n : Z)
| ArgString (s : string)
| ArgError (e : error)
| ArgErrors (es : list error)
| ArgDst (d : Dst).

(** A call returns, returns an error, or panics (index out of range, store
    through a nil pointer). *)
Inductive outcome (A : Type) :=
| Ok (a : A)
| Fail (e : error)
| Panic.
Arguments Ok {A} a.
Arguments Fail {A} e.
Arguments Panic {A}.

(** [row.Values[index]], which panics out of range. *)
Definition index_values (row : ResultRow) (index : Z) : option Datum :=
  if index <? 0 then None else Values row !! Z.to_nat index.

(** [dst == nil], on an interface value: true of the nil interface only. *)
Definition dst_is_nil (dst : Dst) : bool :=
  match dst with
  | NilInterface => true
  | _ => false
  end.

(** The type assertion on [src] of each case of the type switch, with the
    conversion that follows. *)
Definition assert_type (ty : ptr_type) (src : Datum) : option scanned :=
  match ty, src with
  | PtrString, DString s => Some (VString s)
  | PtrBool, DBool b => Some (VBool b)
  | PtrInt64, DInt n => Some (VInt64 n)
  | PtrTime, DTimestamp t => Some (VTime t)
  | PtrBytes, DBytes b => Some (VBytes b)
  | _, _ => None
  end.

(** [strings.HasSuffix]. *)
Definition HasSuffix (s suffix : string) : bool :=
  (String.length suffix <=? String.length s)%nat
  && String.eqb
       (String.substring (String.length s - String.length suffix)
                  (String.length suffix) s)
       suffix.

(** The character ['$']. *)
Definition dollar : Ascii.ascii := Ascii.ascii_of_nat 36.

(** Number of ['$'] in a string. *)
Fixpoint dollars (s : string) : nat :=
  match s with
  | EmptyString => 0
  | String r s' => if Ascii.eqb r dollar then S (dollars s') else dollars s'
  end.

(** [sqlQuery]; [q_buf] is the content of the buffer. *)
Record sqlQuery := {
  q_buf : string;
  q_pidx : Z;
  q_params : list Datum;
  q_errs : list error
}.

(** The zero value: [var query sqlQuery], [&sqlQuery{}]. *)
Definition sqlQuery_zero : sqlQuery :=
  {| q_buf := ""; q_pidx := 0; q_params := []; q_errs := [] |}.

(** [apiEventLimit]. *)
Definition apiEventLimit : Z := 1000.

Section Facade.

(** [util.Errorf] and [util.ErrorfSkipFrames] are outside the sources: an
    error is made from the line of the call, the format and the arguments. *)
Variable Errorf : Z -> string -> list fmt_arg -> error.
Variable ErrorfSkipFrames : Z -> Z -> string -> list fmt_arg -> error.

(** [checkQueryResults]: the loop over the results. *)
Fixpoint first_result_error (results : list Result) : option error :=
  match results with
  | [] => None
  | result :: rest =>
      match Err result with
      | Some e => Some (Errorf 142 "%s" [ArgError e])
      | None => first_result_error rest
      end
  end.

Definition checkQueryResults (results : list Result) (numResults : Z)
  : option error :=
  let a := Z.of_nat (length results) in
  let e := numResults in
  if negb (a =? e) then
    Some (Errorf 137 "# of results %d != expected %d" [ArgInt a; ArgInt e])
  else first_result_error results.

(** [firstNotFoundError]. *)
Fixpoint firstNotFoundError (results : list Result) : option error :=
  match results with
  | [] => None
  | res :: rest =>
      match Err res with
      | Some e =>
          if HasSuffix e "does not exist" then Some e
          else firstNotFoundError rest
      | None => firstNotFoundError rest
      end
  end.

(** [sqlQuery.String], [Errors] and [Params]. *)
Definition q_String (q : sqlQuery) : string :=
  if (0 <? length (q_errs q))%nat then
    "couldn't generate query: please check Errors()"
  else q_buf q.
Definition q_Errors (q : sqlQuery) : list error := q_errs q.
Definition q_Params (q : sqlQuery) : list Datum := q_params q.

(** The loop of [Append]: each character is written to the buffer, and each
    ['$'] is followed by the next placeholder number.  (The source ranges
    over runes and writes them back; on valid UTF-8 this copies the bytes,
    and ['$'] is a single byte that occurs in no longer encoding.) *)
Fixpoint write_runes (s : string) (buf : string) (pidx placeholders : Z)
  : string * Z * Z :=
  match s with
  | EmptyString => (buf, pidx, placeholders)
  | String r s' =>
      let buf := buf +:+ String r EmptyString in
      if Ascii.eqb r dollar then
        let pidx := wrap64 (pidx + 1) in
        let placeholders := wrap64 (placeholders + 1) in
        write_runes s' (buf +:+ fmt_d pidx) pidx placeholders
      else write_runes s' buf pidx placeholders
  end.

(** [sqlQuery.Append]. *)
Definition Append (s : string) (params : list Datum) (q : sqlQuery)
  : sqlQuery :=
  let '(buf, pidx, placeholders) := write_runes s (q_buf q) (q_pidx q) 0 in
  {| q_buf := buf;
     q_pidx := pidx;
     q_params := q_params q ++ params;
     q_errs :=
       if negb (placeholders =? Z.of_nat (length params)) then
         q_errs q ++ [Errorf 880 "# of placeholders %d != # of params %d"
                        [ArgInt placeholders;
                         ArgInt (Z.of_nat (length params))]]
       else q_errs q |}.

(** A sequence of calls of [Append]. *)
Definition Appends (calls : list (string * list Datum)) (q : sqlQuery)
  : sqlQuery :=
  foldl (fun q call => Append call.1 call.2 q) q calls.

(** The query of [getUIData]: lines 480 to 488. *)
Fixpoint uiData_keys (i : Z) (keys : list string) (query : sqlQuery)
  : sqlQuery :=
  match keys with
  | [] => query
  | key :: rest =>
      let query := if negb (i =? 0) then Append "," [] query else query in
      uiData_keys (i + 1) rest (Append "$" [DString key] query)
  end.

Definition uiData_query (keys : list string) : sqlQuery :=
  let query :=
    Append "SELECT key, value, lastUpdated FROM system.ui WHERE key IN ("
           [] sqlQuery_zero in
  Append ");" [] (uiData_keys 0 keys query).

(** The query of [Events]: lines 421 to 432. *)
Definition events_query (reqType : string) (reqTargetId : Z) : sqlQuery :=
  let q := sqlQuery_zero in
  let q := Append "SELECT timestamp, eventType, targetID, reportingID, info, uniqueID "
                  [] q in
  let q := Append "FROM system.eventlog " [] q in
  let q := Append "WHERE true " [] q in
  let q := if (0 <? String.length reqType)%nat
           then Append "AND eventType = $ " [DString reqType] q else q in
  let q := if 0 <? reqTargetId
           then Append "AND targetID = $ " [DInt reqTargetId] q else q in
  let q := Append "ORDER BY timestamp DESC " [] q in
  Append "LIMIT $" [DInt apiEventLimit] q.

(** [makeResultScanner]: the loop fills [colNameToIdx]. *)
Fixpoint fill_colNameToIdx (i : Z) (cols : list ResultColumn)
    (m : gmap string Z) : gmap string Z :=
  match cols with
  | [] => m
  | col :: rest => fill_colNameToIdx (i + 1) rest (<[Name col := i]> m)
  end.

Definition makeResultScanner (cols : list ResultColumn) : gmap string Z :=
  fill_colNameToIdx 0 cols ∅.

(** [resultScanner.IsNull]. *)
Definition IsNull (colNameToIdx : gmap string Z) (row : ResultRow)
    (col : string) : outcome bool :=
  match colNameToIdx !! col with
  | None => Fail (Errorf 906 "result is missing column %s" [ArgString col])
  | Some idx =>
      match index_values row idx with
      | None => Panic
      | Some d => Ok (match d with DNull => true | _ => false end)
      end
  end.

(** The lines of the two error returns of each case of the type switch. *)
Definition nil_check_line (ty : ptr_type) : Z :=
  match ty with
  | PtrString => 918 | PtrBool => 928 | PtrInt64 => 938
  | PtrTime => 948 | PtrBytes => 958
  end.
Definition assertion_line (ty : ptr_type) : Z :=
  match ty with
  | PtrString => 922 | PtrBool => 932 | PtrInt64 => 942
  | PtrTime => 952 | PtrBytes => 962
  end.

(** [resultScanner.ScanIndex]; [Ok v] stands for the store of [v] through the
    destination pointer followed by the return of [nil]. *)
Definition ScanIndex (row : ResultRow) (index : Z) (dst : Dst)
  : outcome scanned :=
  match index_values row index with
  | None => Panic
  | Some src =>
      match dst with
      | Pointer ty isNilPointer =>
          if dst_is_nil dst then
            Fail (ErrorfSkipFrames (nil_check_line ty) 1
                    "nil destination pointer passed in" [])
          else
            match assert_type ty src with
            | None =>
                Fail (ErrorfSkipFrames (assertion_line ty) 1
                        "source type assertion failed" [])
            | Some v => if isNilPointer then Panic else Ok v
            end
      | _ =>
          Fail (ErrorfSkipFrames 968 1 "unimplemented type for scanCol: %T"
                  [ArgDst dst])
      end
  end.

(** [resultScanner.Scan]. *)
Definition Scan (colNameToIdx : gmap string Z) (row : ResultRow)
    (colName : string) (dst : Dst) : outcome scanned :=
  match colNameToIdx !! colName with
  | None => Fail (Errorf 978 "result is missing column %s" [ArgString colName])
  | Some idx => ScanIndex row idx dst
  end.

End Facade.

(** ** Tactics *)

(** One step of the freeze, split by what the database answers. *)
Ltac process_cases H :=
  unfold process in H;
  match type of H with
  | context [?run ?db ?req] =>
      match type of (run db req) with
      | (_ * (_ + ChangeFrozenResponse))%type =>
          let db' := fresh "db'" in
          let e := fresh "e" in
          let fr := fresh "fr" in
          let E := fresh "Hrun" in
          destruct (run db req) as [db' [e|fr]] eqn:E
      end
  end.

(** Unfolding the freeze down to the calls of the database. *)
Ltac unfold_change_frozen :=
  unfold change_frozen, freeze_loop, process; simpl.

(** Case analysis of an enabled step. *)
Ltac step_cases H :=
  unfold step, poll in H;
  repeat match type of H with
         | context [match ?x with _ => _ end] => destruct x eqn:?
         end;
  simplify_eq.

(** ** Proofs: the wait *)

Section WaitProofs.

Variable stores : gmap StoreID NodeID.
Variable wantFrozen : bool.
Variable Pluralize : Z -> string.

Local Abbreviation step := (step stores wantFrozen Pluralize).
Local Abbreviation run := (run stores wantFrozen Pluralize).
Local Abbreviation reachable := (reachable stores wantFrozen Pluralize).
Local Abbreviation init := (init stores).

Lemma run_app evs1 evs2 s :
  run (evs1 ++ evs2) s = run evs1 s ≫= run evs2.
Proof.
  revert s. induction evs1 as [|ev evs1 IH]; intros s; simpl; [done|].
  destruct (step ev s); simpl; auto.
Qed.

Lemma run_snoc evs ev s s1 s2 :
  run evs s = Some s1 -> step ev s1 = Some s2 -> run (evs ++ [ev]) s = Some s2.
Proof. intros H1 H2. rewrite run_app, H1. simpl. by rewrite H2. Qed.

Lemma reachable_step ev s s' :
  reachable s -> step ev s = Some s' -> reachable s'.
Proof. intros [evs H] Hs. exists (evs ++ [ev]). eauto using run_snoc. Qed.

Lemma reachable_run evs s s' :
  reachable s -> run evs s = Some s' -> reachable s'.
Proof.
  intros [evs0 H] Hs. exists (evs0 ++ evs). rewrite run_app, H. done.
Qed.

(** A property kept by every step is kept by every run. *)
Lemma run_preserves (P : state -> Prop) :
  (forall ev s s', P s -> step ev s = Some s' -> P s') ->
  forall evs s s', P s -> run evs s = Some s' -> P s'.
Proof.
  intros Hstep evs. induction evs as [|ev evs IH]; intros s s' HP Hrun;
    simpl in Hrun.
  - by simplify_eq.
  - destruct (step ev s) as [s1|] eqn:E; [|done]. eauto.
Qed.

Lemma sendErr_head e (ch : option error) (l : list error) :
  ch = head l -> sendErr e ch = head (l ++ [e]).
Proof. intros ->. by destruct l. Qed.

Lemma head_snoc_Some {A} (l : list A) x y :
  head l = Some x -> head (l ++ [y]) = Some x.
Proof. by destruct l. Qed.

Lemma elem_of_delete_list {A} (l : list A) i x :
  x ∈ delete i l -> x ∈ l.
Proof.
  revert i. induction l as [|a l IH]; intros [|i]; simpl; intros H.
  - done.
  - done.
  - by apply elem_of_cons; right.
  - apply elem_of_cons in H as [->|H]; apply elem_of_cons; eauto.
Qed.

Lemma NoDup_fmap_delete {A B} (f : A -> B) (l : list A) i :
  NoDup (f <$> l) -> NoDup (f <$> delete i l).
Proof.
  revert i. induction l as [|a l IH]; intros [|i]; simpl; intros H; try done.
  - by apply NoDup_cons in H as [_ H].
  - apply NoDup_cons in H as [Hn Hd]. apply NoDup_cons. split; [|auto].
    intros Hin. apply Hn. apply list_elem_of_fmap in Hin as (y & -> & Hy).
    apply list_elem_of_fmap. exists y. eauto using elem_of_delete_list.
Qed.

Lemma NoDup_fmap_delete_ne {A B} (f : A -> B) (l : list A) i x y :
  NoDup (f <$> l) -> l !! i = Some x -> y ∈ delete i l -> f y ≠ f x.
Proof.
  revert i. induction l as [|a l IH]; intros [|i]; simpl; intros Hnd Hx Hy;
    try done; apply NoDup_cons in Hnd as [Hn Hd].
  - simplify_eq. intros Heq. apply Hn. apply list_elem_of_fmap. eauto.
  - apply elem_of_cons in Hy as [->|Hy]; [|eauto].
    intros Heq. apply Hn. apply list_elem_of_fmap. exists x. split; [done|].
    by eapply list_elem_of_lookup_2.
Qed.

Lemma filter_fmap_not_elem_of {A B} `{EqDecision B} (f : A -> B) (l : list A) x :
  x ∉ (f <$> l) -> filter (fun t => f t = x) l = [].
Proof.
  induction l as [|a l IH]; simpl; intros Hn; [done|].
  apply not_elem_of_cons in Hn as [Hne Hn].
  rewrite filter_cons. destruct (decide (f a = x)); [done|auto].
Qed.

Lemma filter_NoDup_fmap_length {A B} `{EqDecision B} (f : A -> B) (l : list A) x :
  NoDup (f <$> l) -> (length (filter (fun t => f t = x) l) <= 1)%nat.
Proof.
  induction l as [|a l IH]; simpl; intros Hnd; [lia|].
  apply NoDup_cons in Hnd as [Hn Hd].
  rewrite filter_cons. destruct (decide (f a = x)) as [<-|]; [|auto].
  rewrite filter_fmap_not_elem_of by done. simpl. lia.
Qed.

Lemma length_delete_le {A} (l : list A) i :
  (length (delete i l) <= length l)%nat.
Proof.
  revert i. induction l as [|a l IH]; intros [|i]; simpl; try lia.
  specialize (IH i). lia.
Qed.

Lemma init_Inv : Inv init.
Proof.
  split; simpl; try done.
  - intros t Ht. by apply elem_of_nil in Ht.
  - constructor.
  - unfold semCap. lia.
Qed.

Lemma err_None_unless_returned s :
  Inv s -> (forall r, at_pc s ≠ Returned r) -> err s = None.
Proof.
  intros HI Hpc. destruct (err s) as [e|] eqn:E; [|done].
  apply (inv_err _ HI) in E. by apply Hpc in E.
Qed.

Lemma Inv_do_sendErr e s : Inv s -> Inv (do_sendErr e s).
Proof.
  intros [Hfl Hnd Hcap Herr Hfst]. split; simpl; try done.
  destruct (err s); eauto using sendErr_head, head_snoc_Some.
Qed.

Lemma Inv_set_pc p s :
  Inv s -> (forall e, err s = Some e -> p = Returned (Some e)) -> Inv (set_pc p s).
Proof. intros [Hfl Hnd Hcap Herr Hfst] Hp. by split. Qed.

Lemma Inv_end_task i s : Inv s -> Inv (end_task i s).
Proof.
  intros [Hfl Hnd Hcap Herr Hfst]. split; simpl; try done.
  - eauto using elem_of_delete_list.
  - by apply NoDup_fmap_delete.
  - etrans; [apply length_delete_le|exact Hcap].
Qed.

Lemma Inv_visit storeID nodeID rest info draining s :
  Inv s -> at_pc s = InRange ((storeID, nodeID) :: rest) ->
  Inv (visit storeID nodeID rest info draining s).
Proof.
  intros HI Hpc.
  assert (err s = None) as He by (apply err_None_unless_returned; [done|congruence]).
  unfold visit. destruct info as [e|addr]; simpl.
  - apply Inv_set_pc; [|simpl; congruence]. apply Inv_do_sendErr.
    destruct HI. by split.
  - destruct (oks s !! storeID) as [b|] eqn:Hok.
    + apply Inv_set_pc; [|simpl; congruence]. destruct HI. by split.
    + assert (storeID ∉ (t_storeID <$> running s)) as Hfresh.
      { intros (t & -> & Ht)%list_elem_of_fmap.
        apply (inv_inflight _ HI) in Ht. congruence. }
      assert (Inv (set_oks (<[storeID:=false]> (oks s)) (log_resolved storeID s)))
        as HI1.
      { destruct HI as [Hfl Hnd Hcap Herr Hfst]. split; simpl; try done.
        intros t Ht. rewrite lookup_insert_ne; [by apply Hfl|].
        intros ->. apply Hfresh, list_elem_of_fmap. eauto. }
      destruct (RunLimitedAsyncTask _ _) eqn:Hsub.
      * apply Inv_set_pc; [|simpl; congruence].
        destruct HI1 as [Hfl Hnd Hcap Herr Hfst]. simpl in *.
        split; simpl; try done.
        -- intros t [Ht| ->%list_elem_of_singleton]%elem_of_app; [by apply Hfl|].
           simpl. by rewrite lookup_insert_eq.
        -- rewrite fmap_app. apply NoDup_app. split; [done|]. split.
           ++ intros x Hx ->%list_elem_of_singleton. by apply Hfresh.
           ++ simpl. apply NoDup_singleton.
        -- rewrite length_app. simpl. unfold RunLimitedAsyncTask in Hsub.
           destruct draining; [done|].
           destruct (semCap <=? length (running s))%nat eqn:Hle; [done|].
           apply Nat.leb_gt in Hle. lia.
      * apply Inv_set_pc; [|simpl; congruence]. by apply Inv_do_sendErr.
Qed.

Lemma step_Inv ev s s' : Inv s -> step ev s = Some s' -> Inv s'.
Proof.
  intros HI H. step_cases H.
  - assert (err s = None) as He by (apply err_None_unless_returned; [done|congruence]).
    destruct HI. split; simpl; try done. congruence.
  - assert (err s = None) as He by (apply err_None_unless_returned; [done|congruence]).
    apply Inv_set_pc; [done|congruence].
  - by apply Inv_visit.
  - assert (err s = None) as He by (apply err_None_unless_returned; [done|congruence]).
    destruct HI. split; simpl; try done. congruence.
  - assert (err s = None) as He by (apply err_None_unless_returned; [done|congruence]).
    destruct HI as [Hfl Hnd Hcap Herr Hfst]. rewrite He in Hfst.
    unfold select, recvErr. rewrite He.
    destruct (errChan s) as [e|] eqn:Hch; split; simpl; try done.
    congruence.
  - by apply Inv_end_task, Inv_do_sendErr.
  - by apply Inv_end_task, Inv_do_sendErr.
  - pose proof (inv_inflight _ HI t ltac:(by eapply list_elem_of_lookup_2)) as Ht.
    destruct HI as [Hfl Hnd Hcap Herr Hfst]. split; simpl; try done.
    + intros t' Ht'.
      pose proof (NoDup_fmap_delete_ne _ _ _ _ _ Hnd Heqo Ht') as Hne.
      apply elem_of_delete_list in Ht'. unfold poll_deferred.
      destruct (poll_ok _ _);
        [rewrite lookup_insert_ne|rewrite lookup_delete_ne]; auto.
    + by apply NoDup_fmap_delete.
    + etrans; [apply length_delete_le|exact Hcap].
Qed.

Lemma reachable_Inv s : reachable s -> Inv s.
Proof.
  intros [evs H]. eapply (run_preserves Inv); [|apply init_Inv|exact H].
  intros ev s1 s2. apply step_Inv.
Qed.

Lemma polls_of_start_task t s storeID :
  t_storeID t ≠ storeID -> polls_of storeID (start_task t s) = polls_of storeID s.
Proof.
  intros Hne. unfold polls_of. simpl. rewrite filter_app, filter_cons.
  destruct (decide (t_storeID t = storeID)); [done|].
  by rewrite filter_nil, app_nil_r.
Qed.

(** A succeeded store keeps its mark through a step, and the step starts no
    poll action for it. *)
Lemma step_confirmed ev s s' storeID :
  Inv s -> oks s !! storeID = Some true -> step ev s = Some s' ->
  oks s' !! storeID = Some true /\ polls_of storeID s' = polls_of storeID s.
Proof.
  intros HI Hok H. step_cases H; simpl; auto.
  - unfold visit. simpl.
    repeat match goal with
           | |- context [match ?x with _ => _ end] => destruct x eqn:?
           end; simpl; auto.
    + assert (z ≠ storeID) as Hne by congruence.
      rewrite lookup_insert_ne by done. split; [done|].
      etrans; [|by apply (polls_of_start_task {| t_storeID := z; t_nodeID := z0;
                                               t_addr := s0 |} s)].
      done.
    + assert (z ≠ storeID) as Hne by congruence.
      by rewrite lookup_insert_ne.
  - unfold select. by destruct (recvErr _ _).
  - pose proof (inv_inflight _ HI t ltac:(by eapply list_elem_of_lookup_2)) as Ht.
    assert (t_storeID t ≠ storeID) as Hne by congruence.
    unfold poll_deferred. split; [|done].
    destruct (poll_ok _ _);
      [rewrite lookup_insert_ne|rewrite lookup_delete_ne]; auto.
Qed.

Lemma run_confirmed evs s s' storeID :
  Inv s -> oks s !! storeID = Some true -> run evs s = Some s' ->
  oks s' !! storeID = Some true /\ polls_of storeID s' = polls_of storeID s.
Proof.
  intros HI Hok Hrun.
  pose (P := fun x => Inv x /\ oks x !! storeID = Some true
                      /\ polls_of storeID x = polls_of storeID s).
  assert (P s') as (_ & ? & ?); [|done].
  eapply (run_preserves P); [|by split|exact Hrun].
  intros ev s1 s2 (HI1 & Hok1 & Hp1) Hstep.
  destruct (step_confirmed _ _ _ _ HI1 Hok1 Hstep) as [? Hp].
  split; [by eapply step_Inv|]. split; [done|congruence].
Qed.

Lemma outstanding_0 s storeID :
  Inv s -> oks s !! storeID ≠ Some false -> outstanding storeID s = 0%nat.
Proof.
  intros HI Hok. unfold outstanding.
  rewrite filter_fmap_not_elem_of; [done|].
  intros (t & -> & Ht)%list_elem_of_fmap. by apply (inv_inflight _ HI) in Ht.
Qed.

(** C3: in every state of an invocation, each store has at most one poll
    action outstanding; and once a store is marked as succeeded, whatever
    happens next in the invocation, the mark stays, no poll action of the store
    is outstanding, and no new poll action is started for it. *)
Theorem wait_single_poll_and_confirmed_is_final s :
  reachable s ->
  (forall storeID, (outstanding storeID s <= 1)%nat) /\
  (forall storeID evs s',
      oks s !! storeID = Some true -> run evs s = Some s' ->
      oks s' !! storeID = Some true /\
      outstanding storeID s' = 0%nat /\
      polls_of storeID s' = polls_of storeID s).
Proof.
  intros Hr. pose proof (reachable_Inv _ Hr) as HI. split.
  - intros storeID. apply filter_NoDup_fmap_length, HI.
  - intros storeID evs s' Hok Hrun.
    destruct (run_confirmed _ _ _ _ HI Hok Hrun) as [Hok' Hp].
    split; [done|]. split; [|done].
    apply outstanding_0; [|congruence].
    apply reachable_Inv. by eapply reachable_run.
Qed.

Lemma poll_ok_spec resp :
  poll_ok wantFrozen resp = true <->
  (if wantFrozen then NumThawed resp = 0 else NumFrozen resp = 0).
Proof.
  unfold poll_ok. destruct wantFrozen; simpl.
  - rewrite orb_false_r. apply Z.eqb_eq.
  - apply Z.eqb_eq.
Qed.

(** C2: when the poll action of a store gets its reply, the store is marked
    as succeeded exactly when the reply has [NumThawed = 0] (freezing) or
    [NumFrozen = 0] (unfreezing); otherwise its entry is removed, and the next
    turn of the range loop for that store that gets through starts a new poll
    action.  Moreover no other step marks a store as succeeded. *)
Theorem poll_reply_decides_convergence s :
  (forall i t resp s',
      running s !! i = Some t ->
      step (EvPoll i (PollReply resp)) s = Some s' ->
      (oks s' !! t_storeID t = Some true <->
       (if wantFrozen then NumThawed resp = 0 else NumFrozen resp = 0)) /\
      (oks s' !! t_storeID t ≠ Some true -> oks s' !! t_storeID t = None)) /\
  (forall storeID nodeID rest addr,
      at_pc s = InRange ((storeID, nodeID) :: rest) ->
      oks s !! storeID = None ->
      RunLimitedAsyncTask false (length (running s)) = true ->
      exists s', step (EvVisit (inr addr) false) s = Some s' /\
                 polls_of storeID s' = S (polls_of storeID s) /\
                 oks s' !! storeID = Some false) /\
  (forall ev s' storeID,
      step ev s = Some s' ->
      oks s !! storeID ≠ Some true -> oks s' !! storeID = Some true ->
      exists i t resp,
        ev = EvPoll i (PollReply resp) /\ running s !! i = Some t /\
        t_storeID t = storeID /\
        (if wantFrozen then NumThawed resp = 0 else NumFrozen resp = 0)).
Proof.
  split; [|split].
  - intros i t resp s' Hi H. step_cases H. simpl. unfold poll_deferred.
    rewrite <- poll_ok_spec. destruct (poll_ok wantFrozen resp).
    + rewrite lookup_insert_eq. by split.
    + rewrite lookup_delete_eq. by split.
  - intros storeID nodeID rest addr Hpc Hok Hsub.
    unfold step. rewrite Hpc. eexists; split; [done|].
    unfold visit. cbn [oks running log_resolved set_oks].
    rewrite Hok, Hsub. simpl.
    rewrite lookup_insert_eq. split; [|done].
    unfold polls_of. simpl. rewrite filter_app, filter_cons, filter_nil.
    rewrite decide_True by done. rewrite length_app. simpl. lia.
  - intros ev s' storeID H Hn Hy. step_cases H; simpl in *; try done.
    + unfold visit in Hy. simpl in Hy.
      repeat match type of Hy with
             | context [match ?x with _ => _ end] => destruct x eqn:?
             end; simpl in Hy; try done;
        (destruct (decide (z = storeID)) as [->|];
         [rewrite lookup_insert_eq in Hy|rewrite lookup_insert_ne in Hy]; done).
    + unfold select in Hy. by destruct (recvErr _ _).
    + exists i, t, resp. split; [done|]. split; [done|].
      unfold poll_deferred in Hy. rewrite <- poll_ok_spec.
      destruct (poll_ok wantFrozen resp).
      * destruct (decide (t_storeID t = storeID)); [done|].
        by rewrite lookup_insert_ne in Hy.
      * destruct (decide (t_storeID t = storeID)) as [Heq|].
        -- by rewrite Heq, lookup_delete_eq in Hy.
        -- by rewrite lookup_delete_ne in Hy.
Qed.

(** Once the loop has received an error, nothing changes its verdict. *)
Lemma step_err_final ev s s' e :
  err s = Some e -> at_pc s = Returned (Some e) -> step ev s = Some s' ->
  err s' = Some e /\ at_pc s' = Returned (Some e).
Proof. intros He Hpc H. step_cases H; simpl; auto; congruence. Qed.

Lemma run_err_final evs s s' e :
  err s = Some e -> at_pc s = Returned (Some e) -> run evs s = Some s' ->
  err s' = Some e /\ at_pc s' = Returned (Some e).
Proof.
  intros He Hpc Hrun.
  eapply (run_preserves
            (fun x => err x = Some e /\ at_pc x = Returned (Some e)));
    [|by split|exact Hrun].
  intros ev s1 s2 [? ?] ?. by eapply step_err_final.
Qed.

(** C6: a send on the occupied error slot leaves it as it is.  In every state
    of an invocation: as long as the loop has received no error, the slot
    holds the first error ever sent (so all later ones were dropped); the
    [select] hands the error of the slot to the loop, which returns it; the
    error the loop has received is the first one sent, it is the result of the
    call, and no later step replaces it. *)
Theorem first_error_wins s :
  reachable s ->
  (forall e queued, sendErr e (Some queued) = Some queued) /\
  (err s = None -> errChan s = head (sent s)) /\
  (forall e, at_pc s = AtSelect -> errChan s = Some e ->
     exists s', step EvSelect s = Some s' /\ err s' = Some e /\
                at_pc s' = Returned (Some e)) /\
  (forall e, err s = Some e ->
     head (sent s) = Some e /\ at_pc s = Returned (Some e) /\
     forall evs s', run evs s = Some s' ->
                    err s' = Some e /\ at_pc s' = Returned (Some e)).
Proof.
  intros Hr. pose proof (reachable_Inv _ Hr) as HI.
  pose proof (inv_first _ HI) as Hfst. pose proof (inv_err _ HI) as Herr.
  split; [done|]. split; [|split].
  - intros He. by rewrite He in Hfst.
  - intros e Hpc Hch. unfold step. rewrite Hpc. eexists. split; [done|].
    unfold select, recvErr. rewrite Hch. simpl. by split.
  - intros e He. rewrite He in Hfst. split; [done|]. split; [auto|].
    intros evs s' Hrun. eapply run_err_final; eauto.
Qed.

(** A store left marked in flight with no poll action outstanding stays so: no
    step touches its mark or starts a poll action for it. *)
Lemma step_stuck ev s s' storeID :
  oks s !! storeID = Some false -> storeID ∉ (t_storeID <$> running s) ->
  step ev s = Some s' ->
  oks s' !! storeID = Some false /\ (storeID ∉ (t_storeID <$> running s')) /\
  polls_of storeID s' = polls_of storeID s.
Proof.
  intros Hok Hnr H.
  assert (forall i, storeID ∉ (t_storeID <$> delete i (running s))) as Hdel.
  { intros i (t & -> & Ht)%list_elem_of_fmap. apply Hnr, list_elem_of_fmap.
    eauto using elem_of_delete_list. }
  step_cases H; simpl; auto.
  - unfold visit. cbn [oks running log_resolved set_oks].
    repeat match goal with
           | |- context [match ?x with _ => _ end] => destruct x eqn:?
           end; simpl; auto.
    + assert (z ≠ storeID) as Hne by congruence.
      rewrite lookup_insert_ne by done. split; [done|]. split.
      * rewrite fmap_app. simpl. intros [?| ->%list_elem_of_singleton]%elem_of_app;
          done.
      * etrans; [|by apply (polls_of_start_task {| t_storeID := z; t_nodeID := z0;
                                                   t_addr := s0 |} s)].
        done.
    + assert (z ≠ storeID) as Hne by congruence.
      by rewrite lookup_insert_ne.
  - unfold select. by destruct (recvErr _ _).
  - assert (t_storeID t ≠ storeID) as Hne.
    { intros <-. apply Hnr, list_elem_of_fmap. exists t. split; [done|].
      by eapply list_elem_of_lookup_2. }
    split; [|by split]. unfold poll_deferred.
    destruct (poll_ok _ _);
      [rewrite lookup_insert_ne|rewrite lookup_delete_ne]; auto.
Qed.

Lemma run_stuck evs s s' storeID :
  oks s !! storeID = Some false -> storeID ∉ (t_storeID <$> running s) ->
  run evs s = Some s' ->
  oks s' !! storeID = Some false /\ polls_of storeID s' = polls_of storeID s.
Proof.
  intros Hok Hnr Hrun.
  pose (P := fun x => oks x !! storeID = Some false /\
                      (storeID ∉ (t_storeID <$> running x)) /\
                      polls_of storeID x = polls_of storeID s).
  assert (P s') as (? & _ & ?); [|done].
  eapply (run_preserves P); [|by repeat split|exact Hrun].
  intros ev s1 s2 (Hok1 & Hnr1 & Hp1) Hstep.
  destruct (step_stuck _ _ _ _ Hok1 Hnr1 Hstep) as (? & ? & ?).
  repeat split; [done..|congruence].
Qed.

(** C5, as amended: when the remote call of a poll action fails (in
    [GRPCDial] or in [PollFrozen]), the error is offered to the error slot,
    which keeps it if it is empty and drops it otherwise, and the entry of the
    store in [mu.oks] is left as it is, that is, in flight; from then on the
    entry stays in flight and no poll action is started for the store. *)
Theorem poll_failure_leaves_store_in_flight s i t res e s' :
  reachable s ->
  running s !! i = Some t ->
  res = DialError e \/ res = PollError e ->
  step (EvPoll i res) s = Some s' ->
  errChan s' = sendErr e (errChan s) /\
  sent s' = sent s ++ [e] /\
  oks s' = oks s /\
  oks s' !! t_storeID t = Some false /\
  outstanding (t_storeID t) s' = 0%nat /\
  forall evs s'', run evs s' = Some s'' ->
    oks s'' !! t_storeID t = Some false /\
    polls_of (t_storeID t) s'' = polls_of (t_storeID t) s'.
Proof.
  intros Hr Hi Hres H. pose proof (reachable_Inv _ Hr) as HI.
  pose proof (inv_inflight _ HI t ltac:(by eapply list_elem_of_lookup_2)) as Ht.
  assert (s' = end_task i (do_sendErr e s)) as ->.
  { destruct Hres as [-> | ->]; unfold step in H; rewrite Hi in H;
      simpl in H; destruct (at_pc s); by simplify_eq. }
  assert (t_storeID t ∉ (t_storeID <$> running (end_task i (do_sendErr e s))))
    as Hnr.
  { simpl. intros (t' & Heq & Ht')%list_elem_of_fmap.
    by eapply (NoDup_fmap_delete_ne t_storeID (running s) i t t');
      [apply HI|..]. }
  split; [done|]. split; [done|]. split; [done|]. split; [done|]. split.
  - unfold outstanding. by rewrite filter_fmap_not_elem_of.
  - intros evs s'' Hrun.
    by apply (run_stuck evs (end_task i (do_sendErr e s)) s'' _ Ht Hnr).
Qed.

(** After a break with an error in the slot, the call can only return it. *)
Lemma step_aborting ev s s' e :
  (errChan s = Some e /\ (at_pc s = AtCount \/ at_pc s = AtSelect)) \/
  at_pc s = Returned (Some e) ->
  step ev s = Some s' ->
  (errChan s' = Some e /\ (at_pc s' = AtCount \/ at_pc s' = AtSelect)) \/
  at_pc s' = Returned (Some e).
Proof.
  intros HQ H.
  step_cases H; simpl;
    destruct HQ as [[Hch [Hpc|Hpc]]|Hpc]; try congruence; auto;
    try (left; rewrite Hch; simpl; by auto).
  unfold select, recvErr. rewrite Hch. simpl. by right.
Qed.

Lemma run_aborting evs s s' e r :
  errChan s = Some e -> at_pc s = AtCount ->
  run evs s = Some s' -> at_pc s' = Returned r -> r = Some e.
Proof.
  intros Hch Hpc Hrun Hret.
  pose (Q := fun x => (errChan x = Some e /\
                       (at_pc x = AtCount \/ at_pc x = AtSelect)) \/
                      at_pc x = Returned (Some e)).
  assert (Q s') as [[_ [?|?]]|?]; [|congruence|congruence|congruence].
  apply (run_preserves Q) with (evs := evs) (s := s); [|left; by auto|exact Hrun].
  intros ev s1 s2. apply step_aborting.
Qed.

(** C7, as amended: each turn of the range loop resolves the address of the
    node of the store it visits, whatever the state of that store.  When the
    resolution fails, the turn starts no poll action and leaves the range
    loop, the error is offered to the error slot (and is kept if the slot is
    empty), and the call returns the error of the slot: the two next steps of
    the loop return it, and no schedule returns anything else. *)
Theorem resolution_comes_first s storeID nodeID rest info draining :
  at_pc s = InRange ((storeID, nodeID) :: rest) ->
  exists s',
    step (EvVisit info draining) s = Some s' /\
    lookups_of storeID s' = S (lookups_of storeID s) /\
    forall e, info = inl e ->
      at_pc s' = AtCount /\ oks s' = oks s /\ polled s' = polled s /\
      errChan s' = sendErr e (errChan s) /\
      (errChan s = None -> errChan s' = Some e) /\
      (exists s'', run [EvCount; EvSelect] s' = Some s'' /\
                   at_pc s'' = Returned (errChan s')) /\
      (forall evs s'' r, run evs s' = Some s'' -> at_pc s'' = Returned r ->
                         r = errChan s').
Proof.
  intros Hpc. unfold step. rewrite Hpc. eexists. split; [done|]. split.
  - unfold visit, lookups_of.
    repeat match goal with
           | |- context [match ?x with _ => _ end] => destruct x eqn:?
           end; simpl;
      rewrite filter_app, filter_cons, filter_nil, decide_True, length_app by done;
      simpl; lia.
  - intros e ->. unfold visit. simpl.
    destruct (sendErr e (errChan s)) as [q|] eqn:Hq;
      [|by destruct (errChan s)].
    repeat split; try done.
    + intros Hn. rewrite Hn in Hq. simpl in Hq. congruence.
    + eexists. split; [done|]. simpl. unfold select, recvErr. simpl.
      by rewrite Hq.
    + intros evs s'' r Hrun Hret.
      eapply run_aborting; [| |exact Hrun|exact Hret]; simpl; done.
Qed.

(** The counting loop leaves the number of stores less those marked as
    succeeded. *)
Lemma count_waiting_confirmed (m : gmap Z bool) :
  count_waiting stores m = Z.of_nat (size stores) - Z.of_nat (confirmed m).
Proof.
  unfold count_waiting, confirmed.
  apply (map_fold_weak_ind
           (fun r (m : gmap Z bool) =>
              r = Z.of_nat (size stores)
                  - Z.of_nat (size (filter (fun kv => kv.2 = true) m)))).
  - rewrite map_filter_empty, map_size_empty. lia.
  - intros i ok m' r Hi ->. destruct ok.
    + rewrite map_filter_insert_True by done.
      rewrite map_size_insert_None; [lia|].
      apply map_lookup_filter_None. left. done.
    + rewrite map_filter_insert_not'; [done|simpl; congruence|].
      intros y Hy. congruence.
Qed.

Lemma unconverged_confirmed (m : gmap Z bool) :
  (forall k : Z, is_Some (m !! k) -> is_Some (stores !! k)) ->
  (unconverged stores m + confirmed m = size stores)%nat.
Proof.
  intros Hdom. unfold unconverged, confirmed.
  set (P := fun kv : Z * Z => m !! kv.1 ≠ Some true).
  transitivity (size (filter P stores ∪ filter (fun v => ¬ P v) stores));
    [|by rewrite map_filter_union_complement].
  rewrite map_size_disj_union by apply map_disjoint_filter_complement.
  f_equal.
  rewrite <- (size_dom (D := gset Z) (filter (fun kv : Z * bool => kv.2 = true) m)).
  rewrite <- (size_dom (D := gset Z) (filter (fun v => ¬ P v) stores)).
  f_equal. apply set_eq. intros k. rewrite !elem_of_dom. unfold is_Some.
  setoid_rewrite map_lookup_filter_Some. unfold P. simpl. split.
  - intros (b & Hb & ->). destruct (Hdom k) as [n Hn]; [by eauto|].
    exists n. split; [done|]. intros Hne. by apply Hne.
  - intros (n & Hn & Hnn). exists true. split; [|done].
    destruct (m !! k) as [[]|]; try done; exfalso; apply Hnn; congruence.
Qed.

Lemma init_InvDom : InvDom stores init.
Proof.
  split; simpl; [|done]. intros k [x Hx]. by rewrite lookup_empty in Hx.
Qed.

Lemma range_pc_InvDom todo (s : state) p :
  p = range_pc todo ->
  (forall storeID nodeID : Z,
      (storeID, nodeID) ∈ todo -> is_Some (stores !! storeID)) ->
  match p with
  | InRange todo' =>
      forall storeID nodeID : Z,
        (storeID, nodeID) ∈ todo' -> is_Some (stores !! storeID)
  | _ => True
  end.
Proof. intros -> H. by destruct todo. Qed.

Lemma step_InvDom ev s s' :
  Inv s -> InvDom stores s -> step ev s = Some s' -> InvDom stores s'.
Proof.
  intros HI [Hdom Htodo] H. step_cases H; try (by split).
  - split; [done|]. simpl. eapply (range_pc_InvDom order s); [done|].
    intros storeID nodeID Hin.
    apply andb_prop in Heqb as [_ Hperm%bool_decide_eq_true].
    rewrite Hperm in Hin. apply elem_of_map_to_list in Hin. eauto.
  - assert (is_Some (stores !! z)) as Hz.
    { apply (Htodo z z0). apply elem_of_cons. by left. }
    assert (forall storeID nodeID : Z,
               (storeID, nodeID) ∈ l -> is_Some (stores !! storeID)) as Hrest.
    { intros a b Hab. apply (Htodo a b). apply elem_of_cons. by right. }
    unfold visit. cbn [oks running log_resolved set_oks].
    repeat match goal with
           | |- context [match ?x with _ => _ end] => destruct x eqn:?
           end; split; simpl; try done;
      try (by eapply (range_pc_InvDom l s));
      intros k; (destruct (decide (z = k)) as [<-|];
                 [done|by rewrite lookup_insert_ne; auto]).
  - unfold select. destruct (recvErr _ _). split; simpl; [done|].
    by destruct (_ || _).
  - split; simpl; [|done]. intros k. unfold poll_deferred.
    destruct (poll_ok _ _).
    + destruct (decide (t_storeID t = k)) as [<-|].
      * intros _. apply Hdom.
        rewrite (inv_inflight _ HI t); [done|by eapply list_elem_of_lookup_2].
      * rewrite lookup_insert_ne by done. auto.
    + destruct (decide (t_storeID t = k)) as [<-|].
      * rewrite lookup_delete_eq. by intros [? ?].
      * rewrite lookup_delete_ne by done. auto.
Qed.


(** Only the recount writes [numWaiting]. *)
Lemma step_numWaiting ev s s' :
  ev ≠ EvCount -> step ev s = Some s' -> numWaiting s' = numWaiting s.
Proof.
  intros Hev H. step_cases H; simpl; try done.
  - unfold visit.
    repeat match goal with
           | |- context [match ?x with _ => _ end] => destruct x eqn:?
           end; done.
  - unfold select. by destruct (recvErr _ _).
Qed.



End WaitProofs.

Section NoStore.

Variable wantFrozen : bool.
Variable Pluralize : Z -> string.

Local Abbreviation step := (step ∅ wantFrozen Pluralize).
Local Abbreviation run := (run ∅ wantFrozen Pluralize).
Local Abbreviation init := (init ∅).

(** With no store, these are all the schedules and the states they lead to. *)
Lemma run_no_store evs s :
  run evs init = Some s ->
  (evs = [] /\ s = init) \/
  (evs = [EvAttempt []] /\ s = next_attempt [] init) \/
  (evs = [EvAttempt []; EvCount] /\ s = count ∅ (next_attempt [] init)) \/
  (evs = [EvAttempt []; EvCount; EvSelect] /\
   s = select Pluralize (count ∅ (next_attempt [] init))) \/
  (evs = [EvExhausted] /\ s = set_pc (Returned None) init).
Proof.
  revert s. induction evs as [|ev evs IH] using rev_ind; intros s Hrun.
  { simpl in Hrun. left. by simplify_eq. }
  rewrite run_app in Hrun.
  destruct (run evs init) as [s0|] eqn:E; [|done].
  simpl in Hrun. destruct (step ev s0) as [s1|] eqn:Hstep; [|done].
  simplify_eq.
  destruct (IH s0 eq_refl) as [[-> ->]|[[-> ->]|[[-> ->]|[[-> ->]|[-> ->]]]]];
    clear IH E.
  - step_cases Hstep; try done.
    + apply andb_prop in Heqb as [_ Hperm%bool_decide_eq_true].
      rewrite map_to_list_empty in Hperm. apply Permutation_nil_r in Hperm.
      subst. right; left. done.
    + do 4 right. done.
  - step_cases Hstep; try done. right; right; left. done.
  - step_cases Hstep; try done. do 3 right; left. done.
  - step_cases Hstep; done.
  - step_cases Hstep; done.
Qed.

(** C10: with no store to wait for, whatever [wantFrozen] is, the call
    returns success, be it after a first attempt or because the retry
    scheduler grants none; and every schedule has at most three steps, starts
    no poll action, sends no error, and has returned success or can go on. *)
Theorem wait_for_no_store_succeeds :
  (exists s, run [EvAttempt []; EvCount; EvSelect] init = Some s /\
             at_pc s = Returned None) /\
  (exists s, run [EvExhausted] init = Some s /\ at_pc s = Returned None) /\
  (forall evs s, run evs init = Some s ->
     (length evs <= 3)%nat /\
     polled s = [] /\ running s = [] /\ sent s = [] /\ errChan s = None /\
     (at_pc s = Returned None \/ exists ev s', step ev s = Some s')).
Proof.
  split; [by eexists|]. split; [by eexists|].
  intros evs s Hrun.
  destruct (run_no_store _ _ Hrun)
    as [[-> ->]|[[-> ->]|[[-> ->]|[[-> ->]|[-> ->]]]]];
    simpl; (split; [lia|]); repeat (split; [done|]).
  - right. exists EvExhausted. by eexists.
  - right. exists EvCount. by eexists.
  - right. exists EvSelect. by eexists.
  - by left.
  - by left.
Qed.

End NoStore.

(** ** Proofs: the freeze *)

Section ClusterFreezeProofs.

Variables KeyMax Meta2KeyMax Meta1KeyMax LocalMax : Key.
Variable Tag : string.
Variable DB : Type.
Variable Run : DB -> ChangeFrozenRequest -> DB * (error + ChangeFrozenResponse).
Variable Pluralize : Z -> string.

Local Abbreviation process := (process Tag DB Run).
Local Abbreviation freeze_loop := (freeze_loop Tag DB Run).
Local Abbreviation change_frozen :=
  (change_frozen KeyMax Meta2KeyMax Meta1KeyMax LocalMax Tag DB Run).
Local Abbreviation ClusterFreeze :=
  (ClusterFreeze KeyMax Meta2KeyMax Meta1KeyMax LocalMax Tag DB Run Pluralize).
Local Abbreviation cf_state := (cf_state DB).

(** The range loop over [fr.Stores] is a union in which [fr.Stores] wins. *)
Lemma merge_stores_union (frStores stores : gmap Z Z) :
  merge_stores frStores stores = frStores ∪ stores.
Proof.
  unfold merge_stores.
  apply (map_fold_weak_ind (fun r (m : gmap Z Z) => r = m ∪ stores)).
  - by rewrite (left_id_L ∅ (∪)).
  - intros i x m r _ ->. by rewrite insert_union_l.
Qed.

Lemma successes_snoc_ok l fr : successes (l ++ [inr fr]) = successes l ++ [fr].
Proof. unfold successes. by rewrite omap_app. Qed.

Lemma successes_snoc_err l e : successes (l ++ [inl e]) = successes l.
Proof. unfold successes. rewrite omap_app. simpl. by rewrite app_nil_r. Qed.

Lemma sum64_snoc l fr : sum64 (l ++ [fr]) = add64 (sum64 l) (RangesAffected fr).
Proof. unfold sum64. by rewrite foldl_app. Qed.

Lemma sumZ_snoc l fr : sumZ (l ++ [fr]) = sumZ l + RangesAffected fr.
Proof. unfold sumZ. by rewrite foldl_app. Qed.

Lemma union_stores_snoc l fr :
  union_stores (l ++ [fr]) = Stores fr ∪ union_stores l.
Proof. unfold union_stores. by rewrite foldl_app. Qed.

Lemma wrap64_small z : int64_range z -> wrap64 z = z.
Proof.
  unfold int64_range, wrap64. intros Hz. rewrite Z.mod_small; lia.
Qed.

Lemma sumZ_nonneg l :
  Forall (fun fr => 0 <= RangesAffected fr) l -> 0 <= sumZ l.
Proof.
  induction l as [|fr l IH] using rev_ind; intros Hall; [done|].
  apply Forall_app in Hall as [Hl Hfr]. apply Forall_inv in Hfr.
  rewrite sumZ_snoc. specialize (IH Hl). simpl in Hfr. lia.
Qed.

(** Without overflow the sum of the code is the sum. *)
Lemma sum64_sumZ l :
  Forall (fun fr => 0 <= RangesAffected fr) l -> sumZ l < 2 ^ 63 ->
  sum64 l = sumZ l.
Proof.
  induction l as [|fr l IH] using rev_ind; intros Hall Hlt; [done|].
  apply Forall_app in Hall as [Hl Hfr]. apply Forall_inv in Hfr.
  rewrite sum64_snoc, sumZ_snoc in *. simpl in Hfr.
  pose proof (sumZ_nonneg l Hl).
  rewrite IH by (done || lia). unfold add64. apply wrap64_small.
  unfold int64_range. lia.
Qed.

(** A store of the union has the node of the last response that names it. *)
Lemma union_stores_lookup l storeID nodeID :
  union_stores l !! storeID = Some nodeID <->
  exists k fr, l !! k = Some fr /\ Stores fr !! storeID = Some nodeID /\
    forall k' fr', (k < k')%nat -> l !! k' = Some fr' ->
                   Stores fr' !! storeID = None.
Proof.
  induction l as [|fr l IH] using rev_ind.
  { unfold union_stores. simpl. rewrite lookup_empty. split; [done|].
    by intros (k & fr & Hk & _). }
  rewrite union_stores_snoc, lookup_union_Some_raw, IH. split.
  - intros [Hfr|[Hnone (k & fr0 & Hk & Hs & Hlater)]].
    + exists (length l), fr. split; [by rewrite list_lookup_middle|].
      split; [done|]. intros k' fr' Hlt Hk'.
      apply lookup_lt_Some in Hk'. rewrite length_app in Hk'. simpl in Hk'. lia.
    + exists k, fr0. split; [by apply lookup_app_l_Some|]. split; [done|].
      intros k' fr' Hlt Hk'. apply lookup_app_Some in Hk' as [Hk'|[Hge Hk']].
      * eauto.
      * apply list_lookup_singleton_Some in Hk' as [_ <-]. done.
  - intros (k & fr0 & Hk & Hs & Hlater).
    apply lookup_app_Some in Hk as [Hk|[Hge Hk]].
    + right. split.
      * apply (Hlater (length l) fr); [|by rewrite list_lookup_middle].
        by apply lookup_lt_Some in Hk.
      * exists k, fr0. split; [done|]. split; [done|].
        intros k' fr' Hlt Hk'. apply (Hlater k' fr' Hlt).
        by apply lookup_app_l_Some.
    + left. apply list_lookup_singleton_Some in Hk as [_ <-]. done.
Qed.

Lemma fmap_inr_snoc (l : list ChangeFrozenResponse) fr :
  (inr <$> l ++ [fr]) = (inr <$> l) ++ [inr fr] :> list (error + ChangeFrozenResponse).
Proof. by rewrite fmap_app. Qed.

(** The steps keep the running totals, and stop at the first failure. *)
Lemma freeze_loop_acc freeze froms to (s s' : cf_state) oe :
  resp_RangesAffected (cf_resp s) = sum64 (successes (cf_results s)) ->
  cf_stores s = union_stores (successes (cf_results s)) ->
  length (cf_issued s) = length (cf_results s) ->
  cf_results s = inr <$> successes (cf_results s) ->
  freeze_loop freeze froms to s = (s', oe) ->
  resp_RangesAffected (cf_resp s') = sum64 (successes (cf_results s')) /\
  cf_stores s' = union_stores (successes (cf_results s')) /\
  length (cf_issued s') = length (cf_results s') /\
  cf_results s' = (inr <$> successes (cf_results s'))
                    ++ match oe with Some e => [inl e] | None => [] end.
Proof.
  revert to s. induction froms as [|from froms IH]; intros to s Hsum Hst Hlen Hres H;
    simpl in H.
  { simplify_eq. by rewrite app_nil_r. }
  process_cases H.
  - simplify_eq. simpl. rewrite successes_snoc_err.
    repeat split; try done.
    + rewrite !length_app. simpl. lia.
    + by rewrite <- Hres.
  - eapply IH; [| | | |exact H]; simpl; rewrite ?successes_snoc_ok.
    + by rewrite sum64_snoc, Hsum.
    + by rewrite merge_stores_union, union_stores_snoc, Hst.
    + rewrite !length_app. simpl. lia.
    + by rewrite fmap_inr_snoc, <- Hres.
Qed.

Lemma change_frozen_loop freeze db :
  change_frozen freeze db =
  freeze_loop freeze
    (if freeze then [Meta2KeyMax; Meta1KeyMax; LocalMax] else [LocalMax])
    KeyMax (cf_init DB db).
Proof.
  destruct freeze; [done|]. unfold_change_frozen.
  by destruct (Run _ _) as [db' [e|fr]].
Qed.

(** C9: whatever the database answers, when the [ChangeFrozen] steps are
    over: [resp.RangesAffected] is the sum, in the 64-bit arithmetic of the
    code, of the counts of the successful steps, which is their sum when the
    counts are not negative and the sum fits; [stores] is the union of the
    store sets of the successful steps, a store having the node of the last
    step that names it; each request has had one answer; a failure is the
    last answer, and then [ClusterFreeze] returns that error and no response;
    with no failure it returns the response with that sum. *)
Theorem change_frozen_accumulates freeze db s oe :
  change_frozen freeze db = (s, oe) ->
  let ok := successes (cf_results s) in
  resp_RangesAffected (cf_resp s) = sum64 ok /\
  (Forall (fun fr => 0 <= RangesAffected fr) ok -> sumZ ok < 2 ^ 63 ->
   resp_RangesAffected (cf_resp s) = sumZ ok) /\
  cf_stores s = union_stores ok /\
  (forall storeID nodeID,
     cf_stores s !! storeID = Some nodeID <->
     exists k fr, ok !! k = Some fr /\ Stores fr !! storeID = Some nodeID /\
       forall k' fr', (k < k')%nat -> ok !! k' = Some fr' ->
                      Stores fr' !! storeID = None) /\
  length (cf_issued s) = length (cf_results s) /\
  match oe with
  | Some e =>
      cf_results s = (inr <$> ok) ++ [inl e] /\
      ClusterFreeze freeze db (None, Some e) /\
      forall r, ClusterFreeze freeze db r -> r = (None, Some e)
  | None =>
      cf_results s = inr <$> ok /\
      forall r, ClusterFreeze freeze db r ->
                exists w, r = (Some {| resp_RangesAffected := sum64 ok |}, w)
  end.
Proof.
  intros H. pose proof H as Hloop. rewrite change_frozen_loop in Hloop.
  apply freeze_loop_acc in Hloop as (Hsum & Hst & Hlen & Hres); try done.
  simpl. split; [done|]. split.
  { intros Hall Hlt. by rewrite Hsum, sum64_sumZ. }
  split; [done|]. split.
  { intros storeID nodeID. rewrite Hst. apply union_stores_lookup. }
  split; [done|]. destruct oe as [e|].
  - split; [done|]. split; [by econstructor|].
    intros r Hr.
    inversion Hr as [s0 e0 H0|s0 evs w res H0 Hrun Hret]; subst;
      rewrite H in H0; by simplify_eq.
  - rewrite app_nil_r in Hres. split; [done|].
    intros r Hr.
    inversion Hr as [s0 e0 H0|s0 evs w res H0 Hrun Hret];
      rewrite H in H0; [discriminate|].
    injection H0 as <-. exists res. f_equal. f_equal.
    rewrite <- Hsum. by destruct (cf_resp s).
Qed.

(** C1, as amended: an unfreeze sends one request, from [LocalMax] to
    [KeyMax].  A freeze sends one to three requests: the [k]-th starts at the
    [k]-th of [Meta2KeyMax], [Meta1KeyMax], [LocalMax] and ends at [KeyMax]
    for the first and at the [MinStartKey] of the previous response for the
    others; it sends all three exactly when the first two succeed. *)
Theorem freeze_requests_chain db :
  cf_issued (change_frozen false db).1
    = [NewChangeFrozen LocalMax KeyMax false Tag] /\
  let s := (change_frozen true db).1 in
  (1 <= length (cf_issued s) <= 3)%nat /\
  length (cf_results s) = length (cf_issued s) /\
  (forall k q, cf_issued s !! k = Some q ->
     [Meta2KeyMax; Meta1KeyMax; LocalMax] !! k = Some (cfr_Key q) /\
     cfr_Frozen q = true /\ cfr_MustVersion q = Tag /\
     match k with
     | O => cfr_EndKey q = KeyMax
     | S k' => exists fr, cf_results s !! k' = Some (inr fr) /\
                          cfr_EndKey q = MinStartKey fr
     end) /\
  (length (cf_issued s) = 3%nat <->
   exists fr1 fr2, cf_results s !! 0%nat = Some (inr fr1) /\
                   cf_results s !! 1%nat = Some (inr fr2)).
Proof.
  split.
  { unfold_change_frozen. by destruct (Run _ _) as [db' [e|fr]]. }
  unfold_change_frozen.
  destruct (Run db _) as [db1 [e1|fr1]]; simpl.
  { split; [lia|]. split; [done|]. split.
    - intros [|k] q Hq; simpl in Hq; simplify_eq; simpl;
        repeat first [done | split | eexists].
    - split; [done|]. by intros (? & ? & ? & ?). }
  destruct (Run db1 _) as [db2 [e2|fr2]]; simpl.
  { split; [lia|]. split; [done|]. split.
    - intros [|[|k]] q Hq; simpl in Hq; simplify_eq; simpl;
        repeat first [done | split | eexists].
    - split; [done|]. by intros (? & ? & ? & ?). }
  destruct (Run db2 _) as [db3 [e3|fr3]]; simpl.
  all: split; [lia|]; split; [done|]; split;
    [intros [|[|[|k]]] q Hq; simpl in Hq; simplify_eq; simpl;
       repeat first [done | split | eexists]
    |split; [eauto|done]].
Qed.

End ClusterFreezeProofs.

(** ** The properties on the sample runs *)

(** C4: 257 stores, no poll action returns and the node is not draining.  The
    submission for the last store is refused because [sem] is full; the code
    takes the refusal for a shutdown: the call returns "node is shutting
    down", and the store is left marked in flight with no poll action. *)
Theorem full_semaphore_ends_the_wait :
  exists s,
    run many_stores true sample_Pluralize evs_saturated (init many_stores)
      = Some s /\
    at_pc s = Returned (Some "node is shutting down") /\
    length (running s) = semCap /\
    oks s !! 257 = Some false /\
    polls_of 257 s = 0%nat /\
    Forall (fun ev => match ev with
                      | EvVisit _ draining => draining = false
                      | _ => True
                      end) evs_saturated.
Proof.
  eexists. split; [vm_compute; reflexivity|].
  repeat split; try (vm_compute; reflexivity).
  unfold evs_saturated. apply Forall_cons. split; [done|].
  apply Forall_app. split.
  - by apply Forall_replicate.
  - by repeat constructor.
Qed.

(** C1, as stated, fails when a step fails: the database refuses the first
    request of a freeze, and that request is the only one sent. *)
Lemma freeze_stops_at_first_failure :
  cf_issued (sample_change_frozen true script_fail).1
    = [NewChangeFrozen sample_Meta2KeyMax sample_KeyMax true sample_Tag] /\
  length (cf_issued (sample_change_frozen true script_fail).1) ≠ 3%nat.
Proof. split; [vm_compute; reflexivity|vm_compute; discriminate]. Qed.

(** The chain on three successful steps, and the single request of an unfreeze. *)
Lemma freeze_requests_chain_witness :
  length (cf_issued (sample_change_frozen true script_ok).1) = 3%nat /\
  cf_issued (sample_change_frozen false script_ok).1
    = [NewChangeFrozen sample_LocalMax sample_KeyMax false sample_Tag].
Proof.
  destruct (freeze_requests_chain sample_KeyMax sample_Meta2KeyMax
              sample_Meta1KeyMax sample_LocalMax sample_Tag _ script_Run
              script_ok) as (Hun & _ & _ & _ & Hthree).
  split; [|exact Hun].
  apply Hthree. do 2 eexists. split; vm_compute; reflexivity.
Defined.

(** Three successful steps: 5 + 2 + 1 ranges, and store 2 on the node named last. *)
Lemma change_frozen_accumulates_witness :
  sample_change_frozen true script_ok
    = ((sample_change_frozen true script_ok).1, None) /\
  resp_RangesAffected (cf_resp (sample_change_frozen true script_ok).1) = 8 /\
  cf_stores (sample_change_frozen true script_ok).1 !! 2 = Some 21.
Proof.
  assert (sample_change_frozen true script_ok
          = ((sample_change_frozen true script_ok).1, None)) as H
      by (vm_compute; reflexivity).
  split; [exact H|].
  destruct (change_frozen_accumulates sample_KeyMax sample_Meta2KeyMax
              sample_Meta1KeyMax sample_LocalMax sample_Tag _ script_Run
              sample_Pluralize true script_ok _ None H)
    as (_ & Hsum & _ & Hst & _).
  split.
  - rewrite Hsum; [vm_compute; reflexivity| |vm_compute; reflexivity].
    vm_compute. repeat constructor; discriminate.
  - apply Hst. exists 1%nat. eexists. split; [vm_compute; reflexivity|].
    split; [vm_compute; reflexivity|].
    intros [|[|[|k']]] fr' Hlt Hk'; try lia; vm_compute in Hk'; by simplify_eq.
Defined.

(** A reply with no thawed replica marks the store of a freeze as succeeded. *)
Lemma poll_reply_decides_convergence_witness :
  exists s',
    step one_store true sample_Pluralize (EvPoll 0 (PollReply frozen_reply))
      (state_after one_store true evs_polling) = Some s' /\
    oks s' !! 1 = Some true.
Proof.
  eexists. split; [vm_compute; reflexivity|].
  destruct (poll_reply_decides_convergence one_store true sample_Pluralize
              (state_after one_store true evs_polling)) as (Hreply & _ & _).
  eapply (Hreply 0%nat {| t_storeID := 1; t_nodeID := 10;
                          t_addr := "node10:26257" |} frozen_reply);
    vm_compute; reflexivity.
Defined.

(** The store has succeeded; a second attempt keeps the mark and polls nothing. *)
Lemma wait_single_poll_and_confirmed_is_final_witness :
  reachable one_store true sample_Pluralize
    (state_after one_store true evs_confirmed) /\
  (outstanding 1 (state_after one_store true evs_confirmed) <= 1)%nat /\
  oks (state_after one_store true evs_revisit) !! 1 = Some true /\
  polls_of 1 (state_after one_store true evs_revisit)
    = polls_of 1 (state_after one_store true evs_confirmed).
Proof.
  assert (reachable one_store true sample_Pluralize
            (state_after one_store true evs_confirmed)) as Hr
      by (exists evs_confirmed; vm_compute; reflexivity).
  split; [exact Hr|].
  destruct (wait_single_poll_and_confirmed_is_final one_store true
              sample_Pluralize _ Hr) as [Hone Hfinal].
  split; [apply Hone|].
  destruct (Hfinal 1 [EvAttempt [(1, 10)]] (state_after one_store true evs_revisit))
    as (Hok & _ & Hp); [vm_compute; reflexivity..|].
  by split.
Defined.

(** C5, as stated, fails: the poll action of the store fails, and the store
    is still marked in flight. *)
Lemma poll_failure_keeps_in_flight_mark :
  exists s',
    reachable one_store true sample_Pluralize
      (state_after one_store true evs_polling) /\
    running (state_after one_store true evs_polling) !! 0%nat
      = Some {| t_storeID := 1; t_nodeID := 10; t_addr := "node10:26257" |} /\
    step one_store true sample_Pluralize (EvPoll 0 (PollError "rpc error"))
      (state_after one_store true evs_polling) = Some s' /\
    oks s' !! 1 = Some false /\
    oks s' !! 1 ≠ None.
Proof.
  eexists. split; [exists evs_polling; vm_compute; reflexivity|].
  split; [vm_compute; reflexivity|]. split; [vm_compute; reflexivity|].
  split; [vm_compute; reflexivity|vm_compute; discriminate].
Qed.

(** A failed poll action: the error is in the slot, the store still in flight. *)
Lemma poll_failure_leaves_store_in_flight_witness :
  exists s',
    step one_store true sample_Pluralize (EvPoll 0 (PollError "rpc error"))
      (state_after one_store true evs_polling) = Some s' /\
    errChan s' = Some "rpc error" /\ oks s' !! 1 = Some false.
Proof.
  eexists. split; [vm_compute; reflexivity|].
  destruct (poll_failure_leaves_store_in_flight one_store true sample_Pluralize
              (state_after one_store true evs_polling) 0%nat
              {| t_storeID := 1; t_nodeID := 10; t_addr := "node10:26257" |}
              (PollError "rpc error") "rpc error"
              (state_after one_store true
                 (evs_polling ++ [EvPoll 0 (PollError "rpc error")])))
    as (Hch & _ & _ & Hok & _).
  - exists evs_polling. vm_compute. reflexivity.
  - vm_compute. reflexivity.
  - by right.
  - vm_compute. reflexivity.
  - split; [exact Hch|exact Hok].
Defined.

(** Two errors sent: the slot holds the first, and the loop returns it. *)
Lemma first_error_wins_witness :
  reachable two_stores true sample_Pluralize
    (state_after two_stores true evs_two_errors) /\
  sent (state_after two_stores true evs_two_errors)
    = ["rpc error: first"; "rpc error: second"] /\
  errChan (state_after two_stores true evs_two_errors)
    = Some "rpc error: first" /\
  exists s',
    step two_stores true sample_Pluralize EvSelect
      (state_after two_stores true evs_two_errors) = Some s' /\
    at_pc s' = Returned (Some "rpc error: first").
Proof.
  assert (reachable two_stores true sample_Pluralize
            (state_after two_stores true evs_two_errors)) as Hr
      by (exists evs_two_errors; vm_compute; reflexivity).
  split; [exact Hr|]. split; [vm_compute; reflexivity|].
  destruct (first_error_wins two_stores true sample_Pluralize _ Hr)
    as (_ & Hslot & Hselect & _).
  split; [rewrite Hslot; vm_compute; reflexivity|].
  destruct (Hselect "rpc error: first") as (s' & Hstep & _ & Hpc);
    [vm_compute; reflexivity..|].
  exists s'. by split.
Defined.

(** C7, as stated, fails: in the second attempt the address of the node of a
    store already marked as succeeded is resolved once more. *)
Lemma succeeded_store_is_resolved_again :
  exists s',
    reachable one_store true sample_Pluralize
      (state_after one_store true evs_revisit) /\
    oks (state_after one_store true evs_revisit) !! 1 = Some true /\
    step one_store true sample_Pluralize (EvVisit (inr "node10:26257") false)
      (state_after one_store true evs_revisit) = Some s' /\
    lookups_of 1 (state_after one_store true evs_revisit) = 1%nat /\
    lookups_of 1 s' = 2%nat.
Proof.
  eexists. split; [exists evs_revisit; vm_compute; reflexivity|].
  repeat split; vm_compute; reflexivity.
Qed.

(** A failed resolution for a store that has succeeded ends the call. *)
Lemma resolution_comes_first_witness :
  at_pc (state_after one_store true evs_revisit) = InRange [(1, 10)] /\
  exists s',
    step one_store true sample_Pluralize (EvVisit (inl "node 10 unknown") false)
      (state_after one_store true evs_revisit) = Some s' /\
    lookups_of 1 s' = 2%nat /\
    at_pc s' = AtCount /\
    errChan s' = Some "node 10 unknown" /\
    exists s'',
      run one_store true sample_Pluralize [EvCount; EvSelect] s' = Some s'' /\
      at_pc s'' = Returned (Some "node 10 unknown").
Proof.
  assert (at_pc (state_after one_store true evs_revisit) = InRange [(1, 10)])
    as Hpc by (vm_compute; reflexivity).
  split; [exact Hpc|].
  destruct (resolution_comes_first one_store true sample_Pluralize
              (state_after one_store true evs_revisit) 1 10 []
              (inl "node 10 unknown") false Hpc)
    as (s' & Hstep & Hlook & Hfail).
  destruct (Hfail "node 10 unknown" eq_refl)
    as (Hcount & _ & _ & _ & Hkept & (s'' & Hrun & Hret) & _).
  exists s'. split; [exact Hstep|]. split; [exact Hlook|].
  split; [exact Hcount|].
  assert (errChan s' = Some "node 10 unknown") as Hch
      by (apply Hkept; vm_compute; reflexivity).
  split; [exact Hch|]. exists s''. split; [exact Hrun|]. by rewrite <- Hch.
Defined.


(** No store: two steps into the only attempt, nothing polled, nothing sent. *)
Lemma wait_for_no_store_succeeds_witness :
  run ∅ false sample_Pluralize [EvAttempt []; EvCount] (init ∅)
    = Some (state_after ∅ false [EvAttempt []; EvCount]) /\
  polled (state_after ∅ false [EvAttempt []; EvCount]) = [] /\
  sent (state_after ∅ false [EvAttempt []; EvCount]) = [].
Proof.
  assert (run ∅ false sample_Pluralize [EvAttempt []; EvCount] (init ∅)
          = Some (state_after ∅ false [EvAttempt []; EvCount])) as Hrun
      by (vm_compute; reflexivity).
  split; [exact Hrun|].
  destruct (wait_for_no_store_succeeds false sample_Pluralize)
    as (_ & _ & Hall).
  destruct (Hall _ _ Hrun) as (_ & Hp & _ & Hs & _). by split.
Defined.

(** ** Strings *)

Lemma string_app_cons c (s t : string) : String c s +:+ t = String c (s +:+ t).
Proof. reflexivity. Qed.

Lemma string_app_nil_l (s : string) : "" +:+ s = s.
Proof. reflexivity. Qed.

Lemma string_app_nil_r (s : string) : s +:+ "" = s.
Proof.
  induction s as [|c s IH]; [done|]. by rewrite string_app_cons, IH.
Qed.

Lemma string_app_assoc (a b c : string) : (a +:+ b) +:+ c = a +:+ (b +:+ c).
Proof.
  induction a as [|x a IH]; [done|]. by rewrite !string_app_cons, IH.
Qed.

Lemma string_length_app (a b : string) :
  String.length (a +:+ b) = (String.length a + String.length b)%nat.
Proof.
  induction a as [|x a IH]; [done|]. rewrite string_app_cons. simpl.
  by rewrite IH.
Qed.

Lemma dollars_app (a b : string) :
  dollars (a +:+ b) = (dollars a + dollars b)%nat.
Proof.
  induction a as [|x a IH]; [done|]. rewrite string_app_cons. simpl.
  destruct (Ascii.eqb x dollar); simpl; by rewrite IH.
Qed.

Lemma dollars_le_length (s : string) : (dollars s <= String.length s)%nat.
Proof.
  induction s as [|x s IH]; simpl; [done|].
  destruct (Ascii.eqb x dollar); lia.
Qed.

(** A decimal numeral has no ['$']. *)
Lemma dollars_string_of_uint (d : Decimal.uint) :
  dollars (NilEmpty.string_of_uint d) = 0%nat.
Proof. induction d; simpl; done. Qed.

Lemma dollars_fmt_d (n : Z) : dollars (fmt_d n) = 0%nat.
Proof.
  unfold fmt_d, NilZero.string_of_int, NilZero.string_of_uint.
  destruct (Z.to_int n) as [d|d]; destruct d; simpl;
    try done; apply dollars_string_of_uint.
Qed.

Lemma substring_all (s : string) : String.substring 0 (String.length s) s = s.
Proof. induction s as [|c s IH]; simpl; [done|]. by rewrite IH. Qed.

Lemma substring_app_r (p s : string) :
  String.substring (String.length p) (String.length s) (p +:+ s) = s.
Proof.
  induction p as [|c p IH]; [apply substring_all|].
  rewrite string_app_cons. simpl. done.
Qed.

Lemma substring_split (n : nat) (s : string) :
  (n <= String.length s)%nat ->
  s = String.substring 0 n s
      +:+ String.substring n (String.length s - n) s.
Proof.
  revert n. induction s as [|c s IH]; intros [|n] Hn; simpl in *; try lia.
  - done.
  - by rewrite substring_all.
  - rewrite string_app_cons. f_equal. apply IH. lia.
Qed.

(** [strings.HasSuffix] holds exactly of the strings that end with the
    suffix. *)
Lemma HasSuffix_spec (s suffix : string) :
  HasSuffix s suffix = true <-> exists p, s = p +:+ suffix.
Proof.
  unfold HasSuffix. rewrite andb_true_iff, Nat.leb_le, String.eqb_eq. split.
  - intros [Hle Heq].
    exists (String.substring 0 (String.length s - String.length suffix) s).
    etrans; [apply (substring_split (String.length s - String.length suffix) s); lia|].
    f_equal.
    replace (String.length s - (String.length s - String.length suffix))%nat
      with (String.length suffix) by lia.
    exact Heq.
  - intros [p ->]. rewrite string_length_app. split; [lia|].
    replace (String.length p + String.length suffix - String.length suffix)%nat
      with (String.length p) by lia.
    apply substring_app_r.
Qed.
(** ** Proofs: the query builder *)

Lemma write_runes_app (s1 s2 buf : string) (pidx placeholders : Z) :
  write_runes (s1 +:+ s2) buf pidx placeholders =
  write_runes s2 (write_runes s1 buf pidx placeholders).1.1
                 (write_runes s1 buf pidx placeholders).1.2
                 (write_runes s1 buf pidx placeholders).2.
Proof.
  revert buf pidx placeholders.
  induction s1 as [|r s1 IH]; intros buf pidx placeholders; [done|].
  rewrite string_app_cons. simpl. destruct (Ascii.eqb r dollar); apply IH.
Qed.

(** The buffer and [pidx] do not depend on the count of this call. *)
Lemma write_runes_count_irrelevant (s buf : string) (pidx k1 k2 : Z) :
  (write_runes s buf pidx k1).1 = (write_runes s buf pidx k2).1.
Proof.
  revert buf pidx k1 k2.
  induction s as [|r s IH]; intros buf pidx k1 k2; [done|].
  simpl. destruct (Ascii.eqb r dollar); apply IH.
Qed.

(** Text without ['$'] is copied. *)
Lemma write_runes_plain (s buf : string) (pidx placeholders : Z) :
  dollars s = 0%nat ->
  write_runes s buf pidx placeholders = (buf +:+ s, pidx, placeholders).
Proof.
  revert buf. induction s as [|r s IH]; intros buf Hd; simpl in *.
  - by rewrite string_app_nil_r.
  - destruct (Ascii.eqb r dollar); [done|].
    rewrite IH by done. by rewrite string_app_assoc.
Qed.

(** Without overflow, both counters grow by the number of ['$'], and so does
    the number of ['$'] in the buffer, which only grows. *)
Lemma write_runes_counts (s buf : string) (pidx placeholders : Z) :
  0 <= pidx -> pidx + Z.of_nat (dollars s) < 2 ^ 63 ->
  0 <= placeholders -> placeholders + Z.of_nat (dollars s) < 2 ^ 63 ->
  (write_runes s buf pidx placeholders).1.2 = pidx + Z.of_nat (dollars s) /\
  (write_runes s buf pidx placeholders).2
    = placeholders + Z.of_nat (dollars s) /\
  dollars (write_runes s buf pidx placeholders).1.1
    = (dollars buf + dollars s)%nat /\
  exists t, (write_runes s buf pidx placeholders).1.1 = buf +:+ t.
Proof.
  revert buf pidx placeholders.
  induction s as [|r s IH]; intros buf pidx placeholders Hp Hpb Hk Hkb;
    simpl in *.
  - repeat split; try lia. exists "". by rewrite string_app_nil_r.
  - destruct (Ascii.eqb r dollar) eqn:Hr.
    + rewrite !wrap64_small by (unfold int64_range; lia).
      destruct (IH ((buf +:+ String r "") +:+ fmt_d (pidx + 1)) (pidx + 1)
                  (placeholders + 1)) as (H1 & H2 & H3 & t & H4); try lia.
      rewrite H1, H2, H3, H4. repeat split; try lia.
      * rewrite !dollars_app, dollars_fmt_d. simpl. rewrite Hr. lia.
      * exists (String r "" +:+ fmt_d (pidx + 1) +:+ t).
        by rewrite !string_app_assoc.
    + destruct (IH (buf +:+ String r "") pidx placeholders)
        as (H1 & H2 & H3 & t & H4); try lia.
      rewrite H1, H2, H3, H4. repeat split; try lia.
      * rewrite !dollars_app. simpl. rewrite Hr. lia.
      * exists (String r "" +:+ t). by rewrite !string_app_assoc.
Qed.

(** The count of this call is the number of ['$'] of the text. *)
Lemma write_runes_placeholders (s buf : string) (pidx k : Z) :
  0 <= k -> k + Z.of_nat (dollars s) < 2 ^ 63 ->
  (write_runes s buf pidx k).2 = k + Z.of_nat (dollars s).
Proof.
  revert buf pidx k. induction s as [|r s IH]; intros b p k Hk Hkb;
    simpl in *; [lia|].
  destruct (Ascii.eqb r dollar).
  - rewrite (wrap64_small (k + 1)) by (unfold int64_range; lia).
    rewrite IH; lia.
  - by apply IH.
Qed.

Lemma Appends_snoc Errorf calls s ps q :
  Appends Errorf (calls ++ [(s, ps)]) q
  = Append Errorf s ps (Appends Errorf calls q).
Proof. unfold Appends. by rewrite foldl_app. Qed.

(** Unfolding of one call. *)
Ltac unfold_Append :=
  unfold Append;
  repeat match goal with
         | |- context [write_runes ?s ?b ?p ?k] =>
             let w := fresh "w" in
             let E := fresh "Hw" in
             destruct (write_runes s b p k) as [[? ?] ?] eqn:E
         end; simpl.

Section QueryProofs.

Variable Errorf : Z -> string -> list fmt_arg -> error.

Local Abbreviation Append := (Append Errorf).
Local Abbreviation Appends := (Appends Errorf).

Lemma Append_fields s ps q :
  q_buf (Append s ps q) = (write_runes s (q_buf q) (q_pidx q) 0).1.1 /\
  q_pidx (Append s ps q) = (write_runes s (q_buf q) (q_pidx q) 0).1.2 /\
  q_params (Append s ps q) = q_params q ++ ps /\
  q_errs (Append s ps q) =
    if negb ((write_runes s (q_buf q) (q_pidx q) 0).2 =? Z.of_nat (length ps))
    then q_errs q ++ [Errorf 880 "# of placeholders %d != # of params %d"
                        [ArgInt (write_runes s (q_buf q) (q_pidx q) 0).2;
                         ArgInt (Z.of_nat (length ps))]]
    else q_errs q.
Proof. unfold_Append. done. Qed.

Lemma sqlQuery_eq (q1 q2 : sqlQuery) :
  q_buf q1 = q_buf q2 -> q_pidx q1 = q_pidx q2 ->
  q_params q1 = q_params q2 -> q_errs q1 = q_errs q2 -> q1 = q2.
Proof. destruct q1, q2. simpl. by intros -> -> -> ->. Qed.

(** X5: appending, with no parameter, a text that has no ['$'] appends the
    text to the buffer and changes nothing else. *)
Theorem Append_plain_text s q :
  dollars s = 0%nat ->
  Append s [] q =
  {| q_buf := q_buf q +:+ s; q_pidx := q_pidx q; q_params := q_params q;
     q_errs := q_errs q |}.
Proof.
  intros Hd. destruct (Append_fields s [] q) as (Hb & Hp & Hps & He).
  rewrite write_runes_plain in Hb, Hp, He by done. simpl in *.
  apply sqlQuery_eq; simpl; [done|done| |done].
  by rewrite Hps, app_nil_r.
Qed.

(** X6: a text and its parameters may be split over two calls: the buffer,
    the placeholder index and the parameters are those of the single call;
    and when each part has as many ['$'] as parameters (fewer than 2^63), no
    error is recorded either way. *)
Theorem Append_split s1 s2 ps1 ps2 q :
  q_buf (Append (s1 +:+ s2) (ps1 ++ ps2) q)
    = q_buf (Append s2 ps2 (Append s1 ps1 q)) /\
  q_pidx (Append (s1 +:+ s2) (ps1 ++ ps2) q)
    = q_pidx (Append s2 ps2 (Append s1 ps1 q)) /\
  q_params (Append (s1 +:+ s2) (ps1 ++ ps2) q)
    = q_params (Append s2 ps2 (Append s1 ps1 q)) /\
  (dollars s1 = length ps1 -> dollars s2 = length ps2 ->
   Z.of_nat (dollars (s1 +:+ s2)) < 2 ^ 63 ->
   q_errs (Append (s1 +:+ s2) (ps1 ++ ps2) q) = q_errs q /\
   q_errs (Append s2 ps2 (Append s1 ps1 q)) = q_errs q).
Proof.
  destruct (Append_fields (s1 +:+ s2) (ps1 ++ ps2) q) as (Hb & Hp & Hps & He).
  destruct (Append_fields s1 ps1 q) as (Hb1 & Hp1 & Hps1 & He1).
  destruct (Append_fields s2 ps2 (Append s1 ps1 q)) as (Hb2 & Hp2 & Hps2 & He2).
  rewrite Hb1, Hp1 in Hb2, Hp2, He2.
  rewrite write_runes_app in Hb, Hp, He.
  split; [|split; [|split]].
  - rewrite Hb, Hb2.
    by rewrite (write_runes_count_irrelevant s2 _ _ _ 0).
  - rewrite Hp, Hp2.
    by rewrite (write_runes_count_irrelevant s2 _ _ _ 0).
  - by rewrite Hps, Hps2, Hps1, app_assoc.
  - intros Hd1 Hd2 Hlt. rewrite dollars_app in Hlt.
    assert ((write_runes s1 (q_buf q) (q_pidx q) 0).2
            = 0 + Z.of_nat (dollars s1)) as Hc1
        by (apply write_runes_placeholders; lia).
    rewrite Hc1 in He. rewrite write_runes_placeholders in He by lia.
    rewrite Hc1 in He1. rewrite write_runes_placeholders in He2 by lia.
    rewrite He, He2, He1, length_app.
    split.
    + by rewrite (proj2 (Z.eqb_eq _ _)) by lia.
    + by rewrite !(proj2 (Z.eqb_eq _ _)) by lia.
Qed.

(** Errors are only added. *)
Lemma Append_errs_prefix s ps q : q_errs q `prefix_of` q_errs (Append s ps q).
Proof.
  destruct (Append_fields s ps q) as (_ & _ & _ & ->).
  destruct (negb _); [by apply prefix_app_r|done].
Qed.

Lemma Appends_errs_prefix calls q : q_errs q `prefix_of` q_errs (Appends calls q).
Proof.
  induction calls as [|[s ps] calls IH] using rev_ind; [done|].
  rewrite Appends_snoc. etrans; [exact IH|apply Append_errs_prefix].
Qed.

(** X7: a call of [Append] whose text has fewer than 2^63 ['$'] records an
    error exactly when their number differs from the number of parameters
    passed; errors are never removed; and once an error is recorded,
    [String] returns the fixed complaint after any further calls. *)
Theorem Append_errors s ps q :
  Z.of_nat (dollars s) < 2 ^ 63 ->
  (dollars s = length ps -> q_Errors (Append s ps q) = q_Errors q) /\
  (dollars s ≠ length ps ->
   q_Errors (Append s ps q) =
   q_Errors q ++ [Errorf 880 "# of placeholders %d != # of params %d"
                    [ArgInt (Z.of_nat (dollars s));
                     ArgInt (Z.of_nat (length ps))]]) /\
  (forall calls,
     q_Errors q `prefix_of` q_Errors (Appends calls q) /\
     (q_Errors q ≠ [] ->
      q_String (Appends calls q)
        = "couldn't generate query: please check Errors()")).
Proof.
  intros Hlt. unfold q_Errors.
  destruct (Append_fields s ps q) as (_ & _ & _ & He).
  rewrite write_runes_placeholders in He by lia. rewrite !Z.add_0_l in He.
  split; [|split].
  - intros Hd. rewrite He, Hd, Z.eqb_refl. done.
  - intros Hd. rewrite He.
    destruct (Z.of_nat (dollars s) =? Z.of_nat (length ps)) eqn:E;
      [|done].
    apply Z.eqb_eq in E. lia.
  - intros calls. split; [apply Appends_errs_prefix|].
    intros Hne. unfold q_String.
    destruct (Appends_errs_prefix calls q) as [t Ht]. rewrite Ht.
    destruct (q_errs q); [done|]. done.
Qed.

End QueryProofs.
(** ** Further properties of the wait *)

Section WaitMore.

Variable stores : gmap StoreID NodeID.
Variable wantFrozen : bool.
Variable Pluralize : Z -> string.

Local Abbreviation step := (step stores wantFrozen Pluralize).
Local Abbreviation run := (run stores wantFrozen Pluralize).
Local Abbreviation reachable := (reachable stores wantFrozen Pluralize).
Local Abbreviation init := (init stores).

Lemma range_pc_not_returned todo r : range_pc todo ≠ Returned r.
Proof. by destruct todo. Qed.

Lemma event_is_count (ev : event) : ev = EvCount \/ ev ≠ EvCount.
Proof. destruct ev; (by left) || (by right). Qed.

(** What is returned is what the code after the loop makes of [err] and
    [numWaiting]. *)
Lemma step_returned ev s s' :
  (forall r, at_pc s = Returned r -> r = finish Pluralize (err s) (numWaiting s)) ->
  step ev s = Some s' ->
  forall r, at_pc s' = Returned r -> r = finish Pluralize (err s') (numWaiting s').
Proof.
  intros Hret H r Hr. step_cases H; simpl in *; try done; auto.
  - by apply range_pc_not_returned in Hr.
  - congruence.
  - unfold visit in Hr.
    repeat match type of Hr with
           | context [match ?x with _ => _ end] => destruct x eqn:?
           end; simpl in Hr; try done; by apply range_pc_not_returned in Hr.
  - unfold select in *. destruct (recvErr _ _) as [e' c']. simpl in *.
    destruct (_ || _); [congruence|done].
Qed.

(** [numWaiting] is the count of a recount made at some earlier point, whose
    succeeded stores are still marked so. *)
Lemma reachable_counted s :
  reachable s ->
  (exists m : gmap Z bool,
      numWaiting s = Z.of_nat (unconverged stores m) /\
      forall k, m !! k = Some true -> oks s !! k = Some true) /\
  (forall r, at_pc s = Returned r -> r = finish Pluralize (err s) (numWaiting s)).
Proof.
  intros [evs Hrun].
  pose (P := fun x : state =>
    Inv x /\ InvDom stores x /\
    (exists m : gmap Z bool,
        numWaiting x = Z.of_nat (unconverged stores m) /\
        forall k, m !! k = Some true -> oks x !! k = Some true) /\
    (forall r, at_pc x = Returned r -> r = finish Pluralize (err x) (numWaiting x))).
  assert (P s) as (_ & _ & ? & ?); [|done].
  apply (run_preserves stores wantFrozen Pluralize P) with (evs := evs) (s := init);
    [| |exact Hrun].
  - intros ev s1 s2 (HI & HD & (m & Hn & Hm) & Hret) Hstep.
    split; [by eapply step_Inv|]. split; [by eapply step_InvDom|].
    split; [|by eapply step_returned].
    destruct (event_is_count ev) as [->|Hev].
    + step_cases Hstep. exists (oks s1). split; [|done]. simpl.
      rewrite count_waiting_confirmed.
      pose proof (unconverged_confirmed stores (oks s1) (proj1 HD)). lia.
    + exists m. split.
      * by rewrite (step_numWaiting _ _ _ _ _ _ Hev Hstep).
      * intros k Hk. by eapply step_confirmed; [| |exact Hstep]; auto.
  - split; [apply init_Inv|]. split; [apply init_InvDom|]. split; [|done].
    exists ∅. split; [|by intros k; rewrite lookup_empty].
    simpl. f_equal. unfold unconverged. f_equal. symmetry.
    apply map_filter_id. intros k v _. simpl. by rewrite lookup_empty.
Qed.

Lemma unconverged_0 (m : gmap Z bool) storeID nodeID :
  unconverged stores m = 0%nat -> stores !! storeID = Some nodeID ->
  m !! storeID = Some true.
Proof.
  unfold unconverged. intros H0%map_size_empty_iff Hs.
  destruct (decide (m !! storeID = Some true)) as [|Hne]; [done|].
  exfalso.
  assert (filter (fun kv : Z * Z => m !! kv.1 ≠ Some true) stores !! storeID
          = Some nodeID) as Hin by (by apply map_lookup_filter_Some).
  by rewrite H0, lookup_empty in Hin.
Qed.

Lemma finish_None e n : finish Pluralize e n = None -> e = None /\ n <= 0.
Proof.
  unfold finish. destruct e as [e|]; [done|].
  destruct (0 <? n) eqn:E; [done|]. apply Z.ltb_ge in E. done.
Qed.

(** When the call has returned [nil], every store is marked as succeeded. *)
Lemma returned_nil_all_succeeded s storeID nodeID :
  reachable s -> at_pc s = Returned None ->
  stores !! storeID = Some nodeID -> oks s !! storeID = Some true.
Proof.
  intros Hr Hpc Hs.
  destruct (reachable_counted s Hr) as [(m & Hn & Hm) Hret].
  specialize (Hret None Hpc). symmetry in Hret.
  apply finish_None in Hret as [_ Hle].
  apply Hm. eapply unconverged_0; [lia|done].
Qed.


Lemma unconverged_le (m : gmap Z bool) :
  (unconverged stores m <= size stores)%nat.
Proof.
  unfold unconverged. apply map_subseteq_size, map_filter_subseteq.
Qed.

Lemma confirmed_0 (m : gmap Z bool) :
  (forall k, m !! k ≠ Some true) -> confirmed m = 0%nat.
Proof.
  intros Hm. unfold confirmed. apply map_size_empty_iff, map_empty.
  intros k. apply map_lookup_filter_None. right. intros b Hb. simpl.
  intros ->. by apply (Hm k).
Qed.

(** X1: when [waitForStoreFrozen] has returned [nil], every store it was
    given is marked as succeeded in [mu.oks] and has no poll action
    outstanding. *)
Theorem wait_success_is_sound s storeID nodeID :
  reachable s -> at_pc s = Returned None ->
  stores !! storeID = Some nodeID ->
  oks s !! storeID = Some true /\ outstanding storeID s = 0%nat.
Proof.
  intros Hr Hpc Hs.
  assert (oks s !! storeID = Some true) as Hok
      by (by eapply returned_nil_all_succeeded).
  split; [done|]. eapply outstanding_0; [by eapply reachable_Inv|congruence].
Qed.

(** X2: an error returned by [waitForStoreFrozen] is either the first error
    passed to [sendErr], or the time-out error, whose count is then at least
    one and at most the number of stores given. *)
Theorem wait_error_origin s e :
  reachable s -> at_pc s = Returned (Some e) ->
  head (sent s) = Some e \/
  (0 < numWaiting s <= Z.of_nat (size stores) /\
   e = "timed out waiting for " +:+ fmt_d (numWaiting s) +:+ " store" +:+
       Pluralize (numWaiting s) +:+ " to report freeze").
Proof.
  intros Hr Hpc. pose proof (reachable_Inv _ _ _ _ Hr) as HI.
  destruct (reachable_counted s Hr) as [(m & Hn & _) Hret].
  specialize (Hret _ Hpc). pose proof (inv_first _ HI) as Hfst.
  unfold finish in Hret. destruct (err s) as [e'|].
  - left. congruence.
  - right. destruct (0 <? numWaiting s) eqn:E; [|done].
    apply Z.ltb_lt in E. split; [|congruence].
    split; [done|]. rewrite Hn. pose proof (unconverged_le m). lia.
Qed.

Lemma visit_facts storeID nodeID rest info draining s :
  attempt (visit storeID nodeID rest info draining s) = attempt s /\
  numWaiting (visit storeID nodeID rest info draining s) = numWaiting s /\
  holds_mu (at_pc (visit storeID nodeID rest info draining s)) = true /\
  ((forall k, oks s !! k ≠ Some true) ->
   forall k, oks (visit storeID nodeID rest info draining s) !! k ≠ Some true).
Proof.
  unfold visit. cbn [oks running log_resolved set_oks].
  repeat match goal with
         | |- context [match ?x with _ => _ end] => destruct x eqn:?
         end; simpl; repeat split; auto; try (by destruct rest);
    intros Hk k; (destruct (decide (storeID = k)) as [<-|];
                  [by rewrite lookup_insert_eq
                  |by rewrite lookup_insert_ne; auto]).
Qed.

(** X3: a call that returns [nil] for a non-empty set of stores has started
    at least two attempts: the poll actions of the first attempt cannot mark
    a store before the first recount, which is made under the lock they
    need. *)
Theorem wait_success_takes_two_attempts s :
  reachable s -> at_pc s = Returned None -> (attempt s <= 1)%nat ->
  stores = ∅.
Proof.
  intros [evs Hrun] Hpc Hatt.
  pose (P := fun x : state =>
    (attempt x = 0%nat ->
       running x = [] /\ (forall k, oks x !! k ≠ Some true) /\
       (at_pc x = AtNext \/ exists r, at_pc x = Returned r)) /\
    (attempt x = 1%nat -> holds_mu (at_pc x) = true ->
       forall k, oks x !! k ≠ Some true) /\
    ((attempt x <= 1)%nat -> at_pc x = AtSelect \/ at_pc x = AtNext ->
       numWaiting x = Z.of_nat (size stores)) /\
    ((attempt x <= 1)%nat -> at_pc x = Returned None -> size stores = 0%nat)).
  assert (P s) as (_ & _ & _ & Hz).
  { apply (run_preserves stores wantFrozen Pluralize P) with (evs := evs) (s := init);
      [| |exact Hrun].
    - intros ev s1 s2 (H0 & H1 & Hn & Hr) Hstep.
      assert (holds_mu (at_pc s1) = true \/ at_pc s1 = AtSelect ->
              attempt s1 ≠ 0%nat) as Hnot0.
      { intros Hp Ha. destruct (H0 Ha) as (_ & _ & [Hq|[r Hq]]);
          rewrite Hq in Hp; by destruct Hp. }
      step_cases Hstep.
      + (* a new attempt *)
        unfold P. simpl. split; [done|]. split; [|split].
        * intros [= Ha] _. by apply H0.
        * intros _ [Hp|Hp]; by destruct order.
        * intros _ Hp. by destruct order.
      + (* out of attempts *)
        unfold P. simpl. split; [|split; [|split]].
        * intros Ha. destruct (H0 Ha) as (? & ? & _).
          split; [done|]. split; [done|]. right. by eexists.
        * done.
        * intros _ [?|?]; done.
        * intros Ha [= Hf]. apply finish_None in Hf as [_ Hle].
          rewrite Hn in Hle by auto. lia.
      + (* a turn of the range loop *)
        destruct (visit_facts z z0 l info draining s1) as (Ha & Hw & Hmu & Hk).
        assert (attempt s1 ≠ 0%nat) as Hne0 by (apply Hnot0; simpl; auto).
        unfold P. rewrite Ha. split; [done|]. split; [|split].
        * intros Ha1 _. apply Hk. by apply H1.
        * intros _ [Hp|Hp]; rewrite Hp in Hmu; done.
        * intros _ Hp. rewrite Hp in Hmu. done.
      + (* the recount *)
        assert (attempt s1 ≠ 0%nat) as Hne0 by (apply Hnot0; simpl; auto).
        unfold P. simpl. split; [done|]. split; [done|]. split; [|done].
        intros Ha _. rewrite count_waiting_confirmed, confirmed_0; [lia|].
        apply H1; [lia|done].
      + (* the select *)
        assert (attempt s1 ≠ 0%nat) as Hne0 by (apply Hnot0; simpl; auto).
        unfold P, select. destruct (recvErr _ _) as [e' c']. simpl.
        split; [done|]. split; [|split].
        * intros _. by destruct (_ || _).
        * intros Ha _. apply Hn; auto.
        * intros Ha Hp. destruct (_ || _); [|done].
          injection Hp as Hf. apply finish_None in Hf as [_ Hle].
          rewrite Hn in Hle by auto. lia.
      + (* a poll action fails to dial *)
        assert (attempt s1 ≠ 0%nat) as Hne0.
        { intros Ha. destruct (H0 Ha) as (Hrun0 & _). by rewrite Hrun0 in Heqo. }
        unfold P. simpl. split; [done|]. split; [done|]. split; done.
      + (* a poll action fails *)
        assert (attempt s1 ≠ 0%nat) as Hne0.
        { intros Ha. destruct (H0 Ha) as (Hrun0 & _). by rewrite Hrun0 in Heqo. }
        unfold P. simpl. split; [done|]. split; [done|]. split; done.
      + (* a poll action gets its reply *)
        assert (attempt s1 ≠ 0%nat) as Hne0.
        { intros Ha. destruct (H0 Ha) as (Hrun0 & _). by rewrite Hrun0 in Heqo. }
        unfold P. simpl. split; [done|]. split; [|split; done].
        intros _ Hmu. congruence.
    - unfold P. simpl. split; [|split; [|split]]; try done.
      intros _. split; [done|]. split; [|by left].
      intros k. by rewrite lookup_empty. }
  by apply map_size_empty_iff, Hz.
Qed.

End WaitMore.
